(** * A shallow embedding of the document model of rust_text_editor

    [src/document.rs] (the [Document] type: text buffer, undo/redo
    history, dirty flag, persistence) and the non-presentation part of
    [src/app.rs] (the tab list, the tab bar and the autosave sweep).

    Representation choices:
    - a Rust [String] / [&str] is its UTF-8 byte sequence, a [list ascii]
      (a Rocq [ascii] is eight bits); [str::matches] and [str::replace]
      with a [&str] pattern compare bytes, which is exact for UTF-8;
    - a [Vec<T>] is a [list T] in the same order: [push] appends at the end
      and [pop] removes the last element;
    - a [PathBuf] is its byte string;
    - the file system is a [World] of regular files: the current
      directory, the paths whose writes fail (refused at the open, or
      failing midway after truncating the file), the paths that cannot be
      read, and the log of file contents in write order (the content of a
      path is the last entry for it);
    - a [usize] counter is a [nat] whose increment wraps at [usize::MAX]. *)

From Stdlib Require Import List Ascii String Arith NArith Lia Bool.
Import ListNotations.
Open Scope list_scope.

Definition str := list ascii.
Definition PathBuf := str.

(** String literals. *)
Definition lit (s : string) : str := list_ascii_of_string s.

Definition str_eqb (a b : str) : bool :=
  if list_eq_dec ascii_dec a b then true else false.

Lemma str_eqb_true a b : str_eqb a b = true <-> a = b.
Proof. unfold str_eqb; destruct (list_eq_dec ascii_dec a b); split; congruence. Qed.

Lemma str_eqb_refl a : str_eqb a a = true.
Proof. apply str_eqb_true; reflexivity. Qed.

Lemma str_eqb_false a b : a <> b -> str_eqb a b = false.
Proof.
  intros H; unfold str_eqb; destruct (list_eq_dec ascii_dec a b); congruence.
Qed.

(** ** [Vec] *)

Definition vec_push {A} (v : list A) (x : A) : list A := v ++ [x].

(** [Vec::pop]: the removed last element and the remaining vector. *)
Definition vec_pop {A} (v : list A) : option A * list A :=
  match rev v with
  | [] => (None, v)
  | x :: r => (Some x, rev r)
  end.

Lemma vec_pop_push {A} (v : list A) x : vec_pop (vec_push v x) = (Some x, v).
Proof.
  unfold vec_pop, vec_push; rewrite rev_app_distr; simpl; rewrite rev_involutive;
  reflexivity.
Qed.

Lemma vec_pop_nil {A} : vec_pop (@nil A) = (None, []).
Proof. reflexivity. Qed.

(** ** The file system *)

Inductive IoError := NotFound | PermissionDenied | InvalidData | StorageFull.

Inductive result (A : Type) :=
| Ok (a : A)
| Err (e : IoError).
Arguments Ok {A} a.
Arguments Err {A} e.

(** Regular files only. *)
Record World := mkWorld {
  cwd : option PathBuf;          (** [std::env::current_dir()] *)
  read_only : list PathBuf;      (** paths where [fs::write] fails *)
  torn : list (PathBuf * nat);   (** of those, the ones where the write fails
                                     after the file was opened, truncated and
                                     this many bytes written (a full disk) *)
  unreadable : list PathBuf;     (** paths that cannot be opened for reading *)
  files : list (PathBuf * str)   (** contents, in write order *)
}.

Definition with_files (fs : list (PathBuf * str)) (w : World) : World :=
  mkWorld (cwd w) (read_only w) (torn w) (unreadable w) fs.

Definition assoc_lookup {A} (p : PathBuf) (l : list (PathBuf * A)) : option A :=
  match find (fun pk => str_eqb p (fst pk)) l with
  | Some (_, k) => Some k
  | None => None
  end.

(** [fs::write(path, contents)]: [File::create] (truncating) then
    [write_all]. A refused open touches nothing; a write failing midway
    leaves the file truncated to what was written. *)
Definition fs_write (p : PathBuf) (contents : str) (w : World) : result unit * World :=
  if existsb (str_eqb p) (read_only w) then
    match assoc_lookup p (torn w) with
    | None => (Err PermissionDenied, w)
    | Some k => (Err StorageFull, with_files (files w ++ [(p, firstn k contents)]) w)
    end
  else (Ok tt, with_files (files w ++ [(p, contents)]) w).

(** The current content of a path: its last write. *)
Definition file_lookup (p : PathBuf) (fs : list (PathBuf * str)) : option str :=
  fold_left (fun acc pc => if str_eqb p (fst pc) then Some (snd pc) else acc) fs None.

(** UTF-8 validity as [str::from_utf8] checks it: no overlong forms, no
    surrogates, nothing above U+10FFFF. *)
Definition byte_in (lo hi : nat) (c : ascii) : bool :=
  (lo <=? nat_of_ascii c) && (nat_of_ascii c <=? hi).

Definition cont (c : ascii) : bool := byte_in 128 191 c.

Fixpoint utf8_valid (s : str) : bool :=
  match s with
  | [] => true
  | c :: r =>
      if nat_of_ascii c <? 128 then utf8_valid r
      else if byte_in 194 223 c then
        match r with c1 :: r1 => cont c1 && utf8_valid r1 | _ => false end
      else if byte_in 224 239 c then
        match r with
        | c1 :: c2 :: r2 =>
            (if nat_of_ascii c =? 224 then byte_in 160 191 c1
             else if nat_of_ascii c =? 237 then byte_in 128 159 c1
             else cont c1) && cont c2 && utf8_valid r2
        | _ => false
        end
      else if byte_in 240 244 c then
        match r with
        | c1 :: c2 :: c3 :: r3 =>
            (if nat_of_ascii c =? 240 then byte_in 144 191 c1
             else if nat_of_ascii c =? 244 then byte_in 128 143 c1
             else cont c1) && cont c2 && cont c3 && utf8_valid r3
        | _ => false
        end
      else false
  end.

(** [fs::read_to_string(path)] *)
Definition fs_read_to_string (p : PathBuf) (w : World) : result str :=
  if existsb (str_eqb p) (unreadable w) then Err PermissionDenied
  else match file_lookup p (files w) with
       | Some c => if utf8_valid c then Ok c else Err InvalidData
       | None => Err NotFound
       end.

(** [Path::file_name]: the last component, [None] when it is empty. *)
Fixpoint last_component (p acc : str) : str :=
  match p with
  | [] => acc
  | c :: p' => if Ascii.eqb c "/"%char then last_component p' [] else last_component p' (acc ++ [c])
  end.

Definition file_name (p : PathBuf) : option str :=
  match last_component p [] with
  | [] => None
  | n => Some n
  end.

(** [OsStr::to_str]: the name when it is valid UTF-8. *)
Definition os_str_to_str (n : str) : option str := if utf8_valid n then Some n else None.

(** [PathBuf::push] of a relative file name. *)
Definition path_push (dir : PathBuf) (f : str) : PathBuf :=
  match rev dir with
  | "/"%char :: _ => dir ++ f
  | [] => f
  | _ => dir ++ "/"%char :: f
  end.

(** [format!("{}", n)] for a [usize]. *)
Fixpoint dec_aux (fuel n : nat) (acc : str) : str :=
  match fuel with
  | 0 => acc
  | S f =>
      let acc' := ascii_of_nat (48 + n mod 10) :: acc in
      if n <? 10 then acc' else dec_aux f (n / 10) acc'
  end.

Definition usize_to_string (n : nat) : str := dec_aux (S n) n [].

(** ** [Document] (src/document.rs) *)

Record Document := mkDocument {
  id : nat;
  path : option PathBuf;
  title : str;
  text : str;
  undo_stack : list str;
  redo_stack : list str;
  dirty : bool
}.

Definition new_untitled (id : nat) : Document :=
  mkDocument id None (lit "Безымянный " ++ usize_to_string id) [] [] [] false.

Definition from_file (id : nat) (p : PathBuf) (w : World) : result Document :=
  match fs_read_to_string p w with
  | Err e => Err e
  | Ok t =>
      let title := match match file_name p with Some n => os_str_to_str n | None => None end with
                   | Some n => n
                   | None => lit "Документ"
                   end in
      Ok (mkDocument id (Some p) title t [] [] false)
  end.

Definition set_dirty (b : bool) (d : Document) : Document :=
  mkDocument (id d) (path d) (title d) (text d) (undo_stack d) (redo_stack d) b.

Definition set_path (p : option PathBuf) (d : Document) : Document :=
  mkDocument (id d) p (title d) (text d) (undo_stack d) (redo_stack d) (dirty d).

(** [Document::save]: writes the text when there is a path; the [?] returns
    before [dirty] is cleared when the write fails. *)
Definition save (d : Document) (w : World) : result unit * Document * World :=
  match path d with
  | Some p =>
      match fs_write p (text d) w with
      | (Err e, w') => (Err e, d, w')
      | (Ok _, w') => (Ok tt, set_dirty false d, w')
      end
  | None => (Ok tt, d, w)
  end.

Definition save_as (p : PathBuf) (d : Document) (w : World) : result unit * Document * World :=
  save (set_path (Some p) d) w.

Definition set_text (new_text : str) (d : Document) : Document :=
  if negb (str_eqb new_text (text d)) then
    mkDocument (id d) (path d) (title d) new_text
               (vec_push (undo_stack d) (text d)) [] true
  else d.

Definition undo (d : Document) : Document :=
  match vec_pop (undo_stack d) with
  | (Some prev, us) =>
      mkDocument (id d) (path d) (title d) prev us (vec_push (redo_stack d) (text d)) true
  | (None, _) => d
  end.

Definition redo (d : Document) : Document :=
  match vec_pop (redo_stack d) with
  | (Some next, rs) =>
      mkDocument (id d) (path d) (title d) next (vec_push (undo_stack d) (text d)) rs true
  | (None, _) => d
  end.

(** ** [str::matches(needle).count()] and [str::replace(needle, replacement)]

    Both scan left to right for non-overlapping matches of a non-empty
    [needle]: at a match the scan resumes after its last byte.  [skip] is
    the number of bytes of the current match still to pass over. *)

Fixpoint starts_with (p s : str) : bool :=
  match p, s with
  | [], _ => true
  | a :: p', b :: s' => Ascii.eqb a b && starts_with p' s'
  | _ :: _, [] => false
  end.

Fixpoint count_from (skip : nat) (needle s : str) : nat :=
  match s with
  | [] => 0
  | c :: s' =>
      match skip with
      | S k => count_from k needle s'
      | 0 => if starts_with needle s
             then S (count_from (List.length needle - 1) needle s')
             else count_from 0 needle s'
      end
  end.

Fixpoint replace_from (skip : nat) (needle replacement s : str) : str :=
  match s with
  | [] => []
  | c :: s' =>
      match skip with
      | S k => replace_from k needle replacement s'
      | 0 => if starts_with needle s
             then replacement ++ replace_from (List.length needle - 1) needle replacement s'
             else c :: replace_from 0 needle replacement s'
      end
  end.

Definition str_matches_count (needle s : str) : nat := count_from 0 needle s.
Definition str_replace (needle replacement s : str) : str := replace_from 0 needle replacement s.

(** [s.contains(needle)] *)
Fixpoint str_contains (needle s : str) : bool :=
  starts_with needle s || match s with [] => false | _ :: s' => str_contains needle s' end.

Definition replace_all (needle replacement : str) (d : Document) : nat * Document :=
  match needle with
  | [] => (0, d)
  | _ =>
      let count := str_matches_count needle (text d) in
      if 0 <? count then (count, set_text (str_replace needle replacement (text d)) d)
      else (count, d)
  end.

(** ** [TextEditorApp] (src/app.rs), without its presentation fields
    (search fields, font size, text colour).  Time is a natural number of
    seconds on a monotonic clock. *)

Record App := mkApp {
  docs : list Document;
  active_doc : nat;
  next_doc_id : nat;
  autosave_interval : nat;
  last_autosave : nat
}.

Definition app_new (now : nat) : App := mkApp [new_untitled 1] 0 2 60 now.

Definition usize_max : N := (2 ^ 64 - 1)%N.

(** [self.next_doc_id += 1] on a [usize] as a release build runs it: it
    wraps at [usize::MAX] (a debug build panics there instead). *)
Definition usize_incr (n : nat) : nat := if N.eqb (N.of_nat n) usize_max then 0 else S n.

Definition set_docs (ds : list Document) (a : App) : App :=
  mkApp ds (active_doc a) (next_doc_id a) (autosave_interval a) (last_autosave a).

Definition set_active (i : nat) (a : App) : App :=
  mkApp (docs a) i (next_doc_id a) (autosave_interval a) (last_autosave a).

(** [self.docs[i] = f(self.docs[i])]; [None] is the index panic. *)
Fixpoint update_nth {A} (i : nat) (f : A -> A) (l : list A) : option (list A) :=
  match l, i with
  | [], _ => None
  | x :: l', 0 => Some (f x :: l')
  | x :: l', S i' => option_map (cons x) (update_nth i' f l')
  end.

(** An operation on [current_doc_mut()]. *)
Definition on_current (f : Document -> Document) (a : App) : option App :=
  option_map (fun ds => set_docs ds a) (update_nth (active_doc a) f (docs a)).

(** File menu, "Новый". *)
Definition menu_new (a : App) : App :=
  mkApp (docs a ++ [new_untitled (next_doc_id a)]) (List.length (docs a))
        (usize_incr (next_doc_id a)) (autosave_interval a) (last_autosave a).

(** File menu, "Открыть...", with the picked path. *)
Definition menu_open (p : PathBuf) (a : App) (w : World) : App :=
  match from_file (next_doc_id a) p w with
  | Ok d => mkApp (docs a ++ [d]) (List.length (docs a)) (usize_incr (next_doc_id a))
                  (autosave_interval a) (last_autosave a)
  | Err _ => a
  end.

(** [Vec::remove(idx)] for [idx] in range. *)
Definition remove_at {A} (idx : nat) (l : list A) : list A := firstn idx l ++ skipn (S idx) l.

(** [tabs_bar]: [label_clicked i] and [close_clicked i] are the clicks of
    this frame on the label and on the close button of tab [i].
    [tab_clicks] is the body of its [for (i, doc) in ...] loop, updating
    [(new_active, to_close)]. *)
Definition tab_clicks (label_clicked close_clicked : nat -> bool) (len : nat)
  (acc : option nat * option nat) (i : nat) : option nat * option nat :=
  (if label_clicked i then Some i else fst acc,
   if close_clicked i && (1 <? len) then Some i else snd acc).

Definition tabs_bar (label_clicked close_clicked : nat -> bool) (a : App) : App :=
  let len := List.length (docs a) in
  let '(new_active, to_close) :=
    fold_left (tab_clicks label_clicked close_clicked len)
              (seq 0 len) (@None nat, @None nat) in
  let a1 := match new_active with Some i => set_active i a | None => a end in
  match to_close with
  | Some idx =>
      let ds := remove_at idx (docs a1) in
      let act := if List.length ds <=? active_doc a1 then List.length ds - 1 else active_doc a1 in
      mkApp ds act (next_doc_id a1) (autosave_interval a1) (last_autosave a1)
  | None => a1
  end.

(** The scratch file of an untitled document. *)
Definition autosave_file_name (id : nat) : str :=
  lit "autosave_" ++ usize_to_string id ++ lit ".txt".

(** One iteration of the loop of [handle_autosave]; errors are printed. *)
Definition autosave_doc (d : Document) (w : World) : Document * World :=
  if negb (dirty d) then (d, w)
  else match path d with
       | Some _ => let '(_, d', w') := save d w in (d', w')
       | None =>
           match cwd w with
           | Some dir =>
               let '(_, w') := fs_write (path_push dir (autosave_file_name (id d))) (text d) w in
               (d, w')
           | None => (d, w)
           end
       end.

Fixpoint autosave_docs (ds : list Document) (w : World) : list Document * World :=
  match ds with
  | [] => ([], w)
  | d :: ds' =>
      let '(d', w1) := autosave_doc d w in
      let '(ds'', w2) := autosave_docs ds' w1 in
      (d' :: ds'', w2)
  end.

Definition handle_autosave (now : nat) (a : App) (w : World) : App * World :=
  if autosave_interval a <=? now - last_autosave a then
    let '(ds, w') := autosave_docs (docs a) w in
    (mkApp ds (active_doc a) (next_doc_id a) (autosave_interval a) now, w')
  else (a, w).

(** ** Reachable states *)

(** The text of the last successful save of a document to a path ([None]:
    never saved; loading a file counts as its saved text).  [saved_after d r s]
    updates it after [save] ran on [d] with result [r]. *)
Definition saved_after (d : Document) (r : result unit) (s : option str) : option str :=
  match r, path d with
  | Ok _, Some _ => Some (text d)
  | _, _ => s
  end.

Definition saved_after_autosave (d : Document) (w : World) (s : option str) : option str :=
  if dirty d then
    match path d with
    | Some _ => let '(r, _, _) := save d w in saved_after d r s
    | None => s
    end
  else s.

(** The states of one document, with the text of its last save. *)
Inductive doc_reachable : Document -> option str -> Prop :=
| dr_new i : doc_reachable (new_untitled i) None
| dr_open i p w d : from_file i p w = Ok d -> doc_reachable d (Some (text d))
| dr_set_text d s v : doc_reachable d s -> doc_reachable (set_text v d) s
| dr_undo d s : doc_reachable d s -> doc_reachable (undo d) s
| dr_redo d s : doc_reachable d s -> doc_reachable (redo d) s
| dr_replace_all d s n r : doc_reachable d s -> doc_reachable (snd (replace_all n r d)) s
| dr_save d s w r d' w' :
    doc_reachable d s -> save d w = (r, d', w') -> doc_reachable d' (saved_after d r s)
| dr_save_as d s p w r d' w' :
    doc_reachable d s -> save_as p d w = (r, d', w') ->
    doc_reachable d' (saved_after (set_path (Some p) d) r s)
| dr_autosave d s w :
    doc_reachable d s -> doc_reachable (fst (autosave_doc d w)) (saved_after_autosave d w s).

(** The states of the application; [f] in [ar_current] is any operation
    on the active document (set_text, undo, redo, replace_all, save,
    save_as). *)
Inductive app_reachable : App -> Prop :=
| ar_init now : app_reachable (app_new now)
| ar_new a : app_reachable a -> app_reachable (menu_new a)
| ar_open a p w : app_reachable a -> app_reachable (menu_open p a w)
| ar_current a f a' : app_reachable a -> on_current f a = Some a' -> app_reachable a'
| ar_tabs a lc cc : app_reachable a -> app_reachable (tabs_bar lc cc a)
| ar_autosave a now w : app_reachable a -> app_reachable (fst (handle_autosave now a w)).

(** Applying a sequence of [set_text] calls. *)
Definition apply_edits (vs : list str) (d : Document) : Document :=
  fold_left (fun d v => set_text v d) vs d.

(** Every value differs from the text it replaces. *)
Fixpoint fresh_edits (cur : str) (vs : list str) : Prop :=
  match vs with
  | [] => True
  | v :: vs' => v <> cur /\ fresh_edits v vs'
  end.

(** ** Undo/redo history *)

Section History.

(** [hist U L j d]: the buffer states of [d] are the list [L] on top of the
    older undo entries [U], and the buffer is at position [j] of [L]. *)
Definition hist (U L : list str) (j : nat) (d : Document) : Prop :=
  undo_stack d = U ++ firstn j L /\ text d = nth j L [] /\
  redo_stack d = rev (skipn (S j) L) /\ j < List.length L.

Lemma firstn_S_nth {A} (L : list A) j x :
  j < List.length L -> firstn (S j) L = firstn j L ++ [nth j L x].
Proof.
  revert j; induction L as [|a L IH]; intros j Hj; simpl in *; [lia|].
  destruct j; [reflexivity|].
  simpl; f_equal; apply IH; lia.
Qed.

Lemma skipn_nth {A} (L : list A) j x :
  j < List.length L -> skipn j L = nth j L x :: skipn (S j) L.
Proof.
  revert j; induction L as [|a L IH]; intros j Hj; simpl in *; [lia|].
  destruct j; [reflexivity|].
  apply IH; lia.
Qed.

Lemma undo_hist U L j d : hist U L (S j) d -> hist U L j (undo d).
Proof.
  intros (Hu & Ht & Hr & Hl).
  unfold undo; rewrite Hu, (firstn_S_nth L j []) by lia; rewrite app_assoc.
  change ((U ++ firstn j L) ++ [nth j L []]) with (vec_push (U ++ firstn j L) (nth j L [])).
  rewrite vec_pop_push.
  unfold hist; cbn [undo_stack text redo_stack]; repeat split; try lia.
  unfold vec_push; rewrite Hr, Ht, (skipn_nth L (S j) []) by lia; reflexivity.
Qed.

Lemma redo_hist U L j d : hist U L j d -> S j < List.length L -> hist U L (S j) (redo d).
Proof.
  intros (Hu & Ht & Hr & Hl) Hj.
  unfold redo; rewrite Hr, (skipn_nth L (S j) []) by lia; cbn [rev].
  change (rev (skipn (S (S j)) L) ++ [nth (S j) L []])
    with (vec_push (rev (skipn (S (S j)) L)) (nth (S j) L [])).
  rewrite vec_pop_push.
  unfold hist; cbn [undo_stack text redo_stack]; repeat split; try lia.
  unfold vec_push; rewrite Hu, Ht, (firstn_S_nth L j []) by lia; rewrite app_assoc; reflexivity.
Qed.

Lemma set_text_changed v d :
  v <> text d ->
  set_text v d = mkDocument (id d) (path d) (title d) v (undo_stack d ++ [text d]) [] true.
Proof. intros H; unfold set_text; rewrite str_eqb_false by exact H; reflexivity. Qed.

Lemma set_text_hist U L v d :
  hist U L (List.length L - 1) d -> v <> text d ->
  hist U (L ++ [v]) (List.length L) (set_text v d).
Proof.
  intros (Hu & Ht & Hr & Hl) Hv.
  assert (Hs : skipn (S (List.length L)) (L ++ [v]) = [])
    by (apply skipn_all2; rewrite length_app; simpl; lia).
  rewrite set_text_changed by exact Hv.
  unfold hist; cbn [undo_stack text redo_stack]; rewrite Hs, length_app; simpl.
  rewrite Hu, Ht, <- app_assoc, <- (firstn_S_nth L _ []) by lia.
  replace (S (List.length L - 1)) with (List.length L) by lia.
  rewrite firstn_app, firstn_all, Nat.sub_diag, app_nil_r.
  rewrite app_nth2, Nat.sub_diag by lia.
  repeat split; simpl; lia.
Qed.

Lemma edits_hist vs U L d :
  hist U L (List.length L - 1) d -> fresh_edits (text d) vs ->
  hist U (L ++ vs) (List.length (L ++ vs) - 1) (apply_edits vs d).
Proof.
  revert L d; induction vs as [|v vs IH]; intros L d H Hf.
  - rewrite app_nil_r; exact H.
  - destruct Hf as [Hv Hf].
    pose proof (set_text_hist U L v d H Hv) as H1.
    assert (Ht : text (set_text v d) = v) by (rewrite set_text_changed by exact Hv; reflexivity).
    replace (L ++ v :: vs) with ((L ++ [v]) ++ vs) by (rewrite <- app_assoc; reflexivity).
    apply IH; [| rewrite Ht; exact Hf].
    rewrite length_app; simpl; replace (List.length L + 1 - 1) with (List.length L) by lia.
    exact H1.
Qed.

Lemma undos_hist U L N : forall j d,
  N <= j -> hist U L j d -> hist U L (j - N) (Nat.iter N undo d).
Proof.
  induction N as [|N IH]; intros j d HN H.
  - rewrite Nat.sub_0_r; exact H.
  - simpl; apply undo_hist.
    replace (S (j - S N)) with (j - N) by lia.
    apply IH; [lia | exact H].
Qed.

Lemma redos_hist U L N : forall j d,
  j + N < List.length L -> hist U L j d -> hist U L (j + N) (Nat.iter N redo d).
Proof.
  induction N as [|N IH]; intros j d HN H.
  - rewrite Nat.add_0_r; exact H.
  - simpl; replace (j + S N) with (S (j + N)) by lia.
    apply redo_hist; [apply IH; [lia | exact H] | lia].
Qed.

End History.

(** ** The frame loop of [TextEditorApp::update] *)

(** The largest [i < n] with [f i]: the loops of [tabs_bar] keep the last
    click. *)
Fixpoint last_true (f : nat -> bool) (n : nat) : option nat :=
  match n with
  | 0 => None
  | S m => if f m then Some m else last_true f m
  end.

(** An operation on [current_doc_mut()] that also uses the file system. *)
Definition on_current_io (f : Document -> World -> Document * World) (a : App) (w : World)
  : option (App * World) :=
  match nth_error (docs a) (active_doc a) with
  | Some d =>
      let '(d', w') := f d w in
      option_map (fun ds => (set_docs ds a, w')) (update_nth (active_doc a) (fun _ => d') (docs a))
  | None => None
  end.

(** File menu, "Сохранить": a titled document is saved to its path; for an
    untitled one the save dialog runs, [picked] is its answer.  Errors are
    ignored ([let _ = ...]). *)
Definition menu_save_doc (picked : option PathBuf) (d : Document) (w : World) : Document * World :=
  match path d with
  | Some _ => let '(_, d', w') := save d w in (d', w')
  | None =>
      match picked with
      | Some p => let '(_, d', w') := save_as p d w in (d', w')
      | None => (d, w)
      end
  end.

(** File menu, "Сохранить как...". *)
Definition menu_save_as_doc (picked : option PathBuf) (d : Document) (w : World) : Document * World :=
  match picked with
  | Some p => let '(_, d', w') := save_as p d w in (d', w')
  | None => (d, w)
  end.

(** View menu: the autosave interval, in seconds. *)
Definition set_interval (secs : nat) (a : App) : App :=
  mkApp (docs a) (active_doc a) (next_doc_id a) secs (last_autosave a).

(** One user action of a frame, or the autosave at its end.  [fs_open]
    is the open dialog answering [p]; [fs_edit] is the editor reporting the
    new text; the interval is a [DragValue] with range [10..=600]. *)
Inductive frame_step : App -> World -> App -> World -> Prop :=
| fs_new a w : frame_step a w (menu_new a) w
| fs_open a w p : frame_step a w (menu_open p a w) w
| fs_save a w picked a' w' :
    on_current_io (menu_save_doc picked) a w = Some (a', w') -> frame_step a w a' w'
| fs_save_as a w picked a' w' :
    on_current_io (menu_save_as_doc picked) a w = Some (a', w') -> frame_step a w a' w'
| fs_undo a w a' : on_current undo a = Some a' -> frame_step a w a' w
| fs_redo a w a' : on_current redo a = Some a' -> frame_step a w a' w
| fs_replace_all a w needle repl a' :
    on_current (fun d => snd (replace_all needle repl d)) a = Some a' -> frame_step a w a' w
| fs_edit a w v a' : on_current (set_text v) a = Some a' -> frame_step a w a' w
| fs_tabs a w lc cc : frame_step a w (tabs_bar lc cc a) w
| fs_autosave a w now : frame_step a w (fst (handle_autosave now a w)) (snd (handle_autosave now a w))
| fs_interval a w secs : 10 <= secs <= 600 -> frame_step a w (set_interval secs a) w.

(** States of a session started by [TextEditorApp::new]. *)
Inductive session : App -> World -> Prop :=
| s_init now w : session (app_new now) w
| s_step a w a' w' : session a w -> frame_step a w a' w' -> session a' w'.

(** A session in which the id counter never reaches [usize::MAX]. *)
Inductive session_no_wrap : App -> World -> Prop :=
| nw_init now w : session_no_wrap (app_new now) w
| nw_step a w a' w' : session_no_wrap a w -> (N.of_nat (next_doc_id a) < usize_max)%N ->
    frame_step a w a' w' -> session_no_wrap a' w'.

(** The number a decimal string denotes. *)
Definition digit_step (acc : nat) (c : ascii) : nat := acc * 10 + (nat_of_ascii c - 48).

Definition decimal_value (ds : str) : nat := fold_left digit_step ds 0.

(** * Claims *)

(** ** Document: edits, undo and redo *)

(** C1: after a sequence of effective [set_text] calls (each value differs
    from the text it replaces), [N] undos (at most one per edit) bring the
    buffer back to its value [N] edits earlier, and [N] redos then restore
    the latest text; an undo (a redo) pops its stack and pushes the text it
    replaces onto the other stack. *)
Theorem undo_redo_inverse (d : Document) (vs : list str) (N : nat) :
  fresh_edits (text d) vs -> N <= List.length vs ->
  text (Nat.iter N undo (apply_edits vs d)) = nth (List.length vs - N) (text d :: vs) [] /\
  text (Nat.iter N redo (Nat.iter N undo (apply_edits vs d))) = text (apply_edits vs d) /\
  (forall e prev rest, undo_stack e = rest ++ [prev] ->
     undo e = mkDocument (id e) (path e) (title e) prev rest (redo_stack e ++ [text e]) true) /\
  (forall e next rest, redo_stack e = rest ++ [next] ->
     redo e = mkDocument (id e) (path e) (title e) next (undo_stack e ++ [text e]) rest true).
Proof.
  intros Hf HN.
  split; [| split; [| split]].
  3: { intros e prev rest H; unfold undo; rewrite H;
       change (rest ++ [prev]) with (vec_push rest prev); rewrite vec_pop_push; reflexivity. }
  3: { intros e next rest H; unfold redo; rewrite H;
       change (rest ++ [next]) with (vec_push rest next); rewrite vec_pop_push; reflexivity. }
  all: destruct vs as [|v vs]; [simpl in HN; replace N with 0 by lia; reflexivity|].
  all: destruct Hf as [Hv Hf].
  all: assert (H1 : hist (undo_stack d) [text d; v] 1 (set_text v d))
         by (rewrite set_text_changed by exact Hv; repeat split; simpl; try reflexivity; lia).
  all: assert (Ht : text (set_text v d) = v) by (rewrite set_text_changed by exact Hv; reflexivity).
  all: rewrite <- Ht in Hf; pose proof (edits_hist vs _ _ _ H1 Hf) as H2.
  all: change (apply_edits (v :: vs) d) with (apply_edits vs (set_text v d)).
  all: change ([text d; v] ++ vs) with (text d :: v :: vs) in H2.
  all: replace (List.length (text d :: v :: vs) - 1) with (List.length (v :: vs)) in H2
         by (simpl; lia).
  - pose proof (undos_hist _ _ N _ _ HN H2) as (_ & H3 & _); exact H3.
  - pose proof (undos_hist _ _ N _ _ HN H2) as H3.
    assert (Hlt : List.length (v :: vs) - N + N < List.length (text d :: v :: vs))
      by (cbn [List.length] in *; lia).
    pose proof (redos_hist _ _ N _ _ Hlt H3) as (_ & H4 & _).
    replace (List.length (v :: vs) - N + N) with (List.length (v :: vs)) in H4 by lia.
    destruct H2 as (_ & H2 & _); rewrite H4, H2; reflexivity.
Qed.

(** The scenario of the spec: "hello", "hello world", then three undos. *)
Lemma undo_redo_inverse_witness :
  fresh_edits [] [lit "hello"; lit "hello world"] /\ 2 <= 2 /\
  text (Nat.iter 2 undo (apply_edits [lit "hello"; lit "hello world"] (new_untitled 1))) = [] /\
  text (Nat.iter 1 undo (apply_edits [lit "hello"; lit "hello world"] (new_untitled 1))) = lit "hello" /\
  text (Nat.iter 3 undo (apply_edits [lit "hello"; lit "hello world"] (new_untitled 1))) = [] /\
  text (Nat.iter 2 redo (Nat.iter 2 undo (apply_edits [lit "hello"; lit "hello world"] (new_untitled 1))))
    = lit "hello world".
Proof.
  assert (Hf : fresh_edits [] [lit "hello"; lit "hello world"])
    by (simpl; split; [discriminate | split; [discriminate | exact I]]).
  pose proof (undo_redo_inverse (new_untitled 1) [lit "hello"; lit "hello world"] 2 Hf
                ltac:(simpl; lia)) as (H2 & H3 & _).
  pose proof (undo_redo_inverse (new_untitled 1) [lit "hello"; lit "hello world"] 1 Hf
                ltac:(simpl; lia)) as (H1 & _).
  split; [exact Hf | split; [lia | split; [exact H2 | split; [exact H1 | split]]]].
  - vm_compute; reflexivity.
  - rewrite H3; vm_compute; reflexivity.
Defined.

(** C2: [set_text v] with [v] different from the text pushes the text onto
    the undo stack, clears the redo stack, replaces the text and sets
    [dirty]; with [v] equal to the text it changes nothing. *)
Theorem set_text_spec (d : Document) (v : str) :
  (v <> text d ->
     set_text v d = mkDocument (id d) (path d) (title d) v (undo_stack d ++ [text d]) [] true) /\
  (v = text d -> set_text v d = d).
Proof.
  split.
  - apply set_text_changed.
  - intros ->; unfold set_text; rewrite str_eqb_refl; reflexivity.
Qed.

Lemma set_text_spec_witness :
  set_text (lit "b") (set_text (lit "a") (new_untitled 1)) =
    mkDocument 1 None (title (new_untitled 1)) (lit "b") [[]; lit "a"] [] true /\
  set_text (lit "a") (set_text (lit "a") (new_untitled 1)) = set_text (lit "a") (new_untitled 1).
Proof.
  split.
  - rewrite (proj1 (set_text_spec _ (lit "b"))) by (vm_compute; discriminate).
    vm_compute; reflexivity.
  - apply (proj2 (set_text_spec _ (lit "a"))); vm_compute; reflexivity.
Defined.

(** ** Replace-all *)

Section ReplaceAll.

Lemma starts_with_app (p s : str) : starts_with p s = true <-> exists r, s = p ++ r.
Proof.
  revert s; induction p as [|a p IH]; intros s; simpl.
  - split; [intros _; exists s; reflexivity | reflexivity].
  - destruct s as [|b s].
    + split; [discriminate | intros [r Hr]; discriminate].
    + rewrite andb_true_iff, Ascii.eqb_eq, IH; split.
      * intros [-> [r ->]]; exists r; reflexivity.
      * intros [r Hr]; injection Hr as -> ->; split; [reflexivity | exists r; reflexivity].
Qed.

Lemma starts_with_refl (p : str) : starts_with p p = true.
Proof. apply starts_with_app; exists []; symmetry; apply app_nil_r. Qed.

Lemma starts_with_length (p s : str) : starts_with p s = true -> List.length p <= List.length s.
Proof. intros H; apply starts_with_app in H as [r ->]; rewrite length_app; lia. Qed.

(** The length of the result: each match trades [|needle|] bytes for
    [|replacement|] bytes. *)
Lemma replace_from_length (needle repl : str) : needle <> [] -> forall s k,
  List.length (replace_from k needle repl s) + count_from k needle s * List.length needle
    + Nat.min k (List.length s)
  = List.length s + count_from k needle s * List.length repl.
Proof.
  intros Hn s; induction s as [|c s IH]; intros k; [destruct k; reflexivity|].
  destruct k as [|k]; cbn [replace_from count_from].
  - destruct (starts_with needle (c :: s)) eqn:E.
    + pose proof (starts_with_length _ _ E) as Hl; cbn [List.length] in Hl.
      destruct needle as [|x n']; [contradiction|].
      specialize (IH (List.length (x :: n') - 1)).
      rewrite length_app; cbn [List.length] in *.
      replace (Nat.min (S (List.length n') - 1) (List.length s)) with (List.length n') in IH by lia.
      nia.
    + specialize (IH 0); cbn [List.length] in *; simpl Nat.min in *; lia.
  - specialize (IH k); cbn [List.length Nat.min] in *; lia.
Qed.

Lemma app_same_length {A} (r n X Y : list A) :
  List.length r = List.length n -> r ++ X = n ++ Y -> r = n.
Proof.
  revert n; induction r as [|a r IH]; intros [|b n] Hl He; simpl in *; try discriminate; auto.
  injection He as -> He; f_equal; apply IH; [lia | exact He].
Qed.

Lemma replace_from_same_length (needle repl : str) :
  List.length repl = List.length needle -> repl <> needle -> forall s,
  0 < count_from 0 needle s -> replace_from 0 needle repl s <> s.
Proof.
  intros Hl Hne s; induction s as [|c s IH]; intros Hc; [simpl in Hc; lia|].
  cbn [replace_from count_from] in *.
  destruct (starts_with needle (c :: s)) eqn:E.
  - apply starts_with_app in E as [r Hr]; rewrite Hr; intros He.
    apply Hne; exact (app_same_length _ _ _ _ Hl He).
  - intros He; injection He as He; exact (IH Hc He).
Qed.

(** When a match exists and the replacement is not the needle, replacing
    changes the text. *)
Lemma str_replace_changes (needle repl s : str) :
  needle <> [] -> repl <> needle -> 0 < str_matches_count needle s ->
  str_replace needle repl s <> s.
Proof.
  intros Hn Hne Hc; unfold str_replace, str_matches_count in *.
  destruct (Nat.eq_dec (List.length repl) (List.length needle)) as [Heq | Hneq].
  - exact (replace_from_same_length _ _ Heq Hne s Hc).
  - intros He; pose proof (replace_from_length needle repl Hn s 0) as HL.
    rewrite He in HL; simpl Nat.min in HL.
    apply Hneq; nia.
Qed.

Lemma str_contains_self (needle : str) : str_contains needle needle = true.
Proof. destruct needle; unfold str_contains; rewrite starts_with_refl; reflexivity. Qed.

End ReplaceAll.

Example str_matches_count_foo : str_matches_count (lit "foo") (lit "foo bar foo") = 2.
Proof. reflexivity. Qed.

Example str_matches_count_overlap : str_matches_count (lit "aa") (lit "aaa") = 1.
Proof. reflexivity. Qed.

Example str_replace_foo : str_replace (lit "foo") (lit "baz") (lit "foo bar foo") = lit "baz bar baz".
Proof. reflexivity. Qed.

(** C3 (as amended): with an empty needle [replace_all] returns 0 and
    changes nothing; otherwise it returns the number of non-overlapping
    left-to-right matches in the text before the replacement, leaves the
    document alone when there is none, and otherwise passes the replaced
    text to [set_text]; when the replacement does not contain the needle,
    this is one effective edit: the old text is pushed as one undo entry,
    the redo stack is cleared and [dirty] is set.  The new text may still
    contain the needle where a replacement joins the text after it. *)
Theorem replace_all_spec (d : Document) (needle repl : str) :
  (needle = [] -> replace_all needle repl d = (0, d)) /\
  (needle <> [] ->
     fst (replace_all needle repl d) = str_matches_count needle (text d) /\
     (str_matches_count needle (text d) = 0 -> snd (replace_all needle repl d) = d) /\
     (0 < str_matches_count needle (text d) ->
        snd (replace_all needle repl d) = set_text (str_replace needle repl (text d)) d) /\
     (0 < str_matches_count needle (text d) -> str_contains needle repl = false ->
        text (snd (replace_all needle repl d)) = str_replace needle repl (text d) /\
        undo_stack (snd (replace_all needle repl d)) = undo_stack d ++ [text d] /\
        redo_stack (snd (replace_all needle repl d)) = [] /\
        dirty (snd (replace_all needle repl d)) = true)).
Proof.
  split; [intros ->; reflexivity|].
  intros Hn.
  assert (E : replace_all needle repl d =
              let count := str_matches_count needle (text d) in
              if 0 <? count then (count, set_text (str_replace needle repl (text d)) d)
              else (count, d))
    by (destruct needle; [contradiction | reflexivity]).
  rewrite E; cbv zeta.
  destruct (0 <? str_matches_count needle (text d)) eqn:Hc;
    [apply Nat.ltb_lt in Hc | apply Nat.ltb_ge in Hc].
  - split; [reflexivity | split; [lia | split; [reflexivity |]]].
    intros _ Hr; simpl snd.
    assert (Hne : repl <> needle)
      by (intros ->; rewrite str_contains_self in Hr; discriminate).
    rewrite set_text_changed by (exact (str_replace_changes _ _ _ Hn Hne Hc)).
    repeat split.
  - split; [reflexivity | split; [reflexivity | split; intros; lia]].
Qed.

(** The scenario of the spec: a file holding "foo bar foo" is loaded, and
    "foo" is replaced by "baz". *)
Definition foo_doc : Document :=
  mkDocument 3 (Some (lit "/home/u/a.txt")) (lit "a.txt") (lit "foo bar foo") [] [] false.

Lemma replace_all_spec_witness :
  from_file 3 (lit "/home/u/a.txt") (mkWorld None [] [] [] [(lit "/home/u/a.txt", lit "foo bar foo")])
    = Ok foo_doc /\
  fst (replace_all (lit "foo") (lit "baz") foo_doc) = 2 /\
  text (snd (replace_all (lit "foo") (lit "baz") foo_doc)) = lit "baz bar baz" /\
  undo_stack (snd (replace_all (lit "foo") (lit "baz") foo_doc)) = [lit "foo bar foo"] /\
  dirty (snd (replace_all (lit "foo") (lit "baz") foo_doc)) = true.
Proof.
  destruct (proj2 (replace_all_spec foo_doc (lit "foo") (lit "baz")) ltac:(discriminate))
    as (H1 & _ & _ & H4).
  destruct (H4 ltac:(vm_compute; lia) ltac:(vm_compute; reflexivity)) as (T & U & _ & D).
  rewrite H1, T, U, D; split; [vm_compute; reflexivity | repeat split].
Defined.

(** C3: the claim that the result contains no occurrence of the needle
    when the replacement does not contain it fails: replacing "ab" by "a"
    in "abb" gives "ab". *)
Lemma replace_all_leaves_needle :
  ~ (forall d needle repl, needle <> [] -> str_contains needle repl = false ->
       0 < fst (replace_all needle repl d) ->
       str_contains needle (text (snd (replace_all needle repl d))) = false).
Proof.
  intros H.
  specialize (H (set_text (lit "abb") (new_untitled 1)) (lit "ab") (lit "a")
                ltac:(discriminate) ltac:(reflexivity) ltac:(vm_compute; lia)).
  vm_compute in H; discriminate.
Qed.

(** ** The dirty flag *)

(** The text a document agrees with when it is clean: its last saved text,
    or the empty text of a never-saved untitled document. *)
Definition saved_text (s : option str) : str :=
  match s with Some t => t | None => [] end.

Section Dirty.

Lemma set_text_clean v d : dirty (set_text v d) = false -> set_text v d = d.
Proof. unfold set_text; destruct (negb (str_eqb v (text d))); [discriminate | reflexivity]. Qed.

Lemma undo_clean d : dirty (undo d) = false -> undo d = d.
Proof. unfold undo; destruct (vec_pop (undo_stack d)) as [[prev|] us]; [discriminate | reflexivity]. Qed.

Lemma redo_clean d : dirty (redo d) = false -> redo d = d.
Proof. unfold redo; destruct (vec_pop (redo_stack d)) as [[next|] rs]; [discriminate | reflexivity]. Qed.

Lemma replace_all_clean n r d : dirty (snd (replace_all n r d)) = false -> snd (replace_all n r d) = d.
Proof.
  unfold replace_all; destruct n as [|c n]; [reflexivity|].
  destruct (0 <? _); [apply set_text_clean | reflexivity].
Qed.

Lemma save_clean d s w r d' w' :
  (dirty d = false -> text d = saved_text s) -> save d w = (r, d', w') ->
  dirty d' = false -> text d' = saved_text (saved_after d r s).
Proof.
  intros Hd Hs; unfold save in Hs; unfold saved_after.
  destruct (path d) as [p|].
  - destruct (fs_write p (text d) w) as [[u|e] w1];
      injection Hs as <- <- <-; [reflexivity | exact Hd].
  - injection Hs as <- <- <-; exact Hd.
Qed.

End Dirty.

(** C4 (as amended): in every reachable state, a clean document ([dirty]
    false) holds exactly its last saved text (for a never-saved untitled
    document, its initial empty text); the converse does not hold, since
    an undo or a redo always sets [dirty], also when it restores the saved
    text. *)
Theorem clean_means_saved :
  (forall d s, doc_reachable d s -> dirty d = false -> text d = saved_text s) /\
  (forall e, undo_stack e <> [] -> dirty (undo e) = true) /\
  (forall e, redo_stack e <> [] -> dirty (redo e) = true).
Proof.
  split; [| split].
  - intros d s H; induction H as
      [i | i p w d Ho | d s v H IH | d s H IH | d s H IH | d s n r H IH
      | d s w r d' w' H IH Hs | d s p w r d' w' H IH Hs | d s w H IH]; intros Hc.
    + reflexivity.
    + reflexivity.
    + pose proof (set_text_clean _ _ Hc) as E; rewrite E in Hc |- *; exact (IH Hc).
    + pose proof (undo_clean _ Hc) as E; rewrite E in Hc |- *; exact (IH Hc).
    + pose proof (redo_clean _ Hc) as E; rewrite E in Hc |- *; exact (IH Hc).
    + pose proof (replace_all_clean _ _ _ Hc) as E; rewrite E in Hc |- *; exact (IH Hc).
    + exact (save_clean _ _ _ _ _ _ IH Hs Hc).
    + exact (save_clean (set_path (Some p) d) s w r d' w' IH Hs Hc).
    + revert Hc; unfold autosave_doc, saved_after_autosave.
      destruct (dirty d) eqn:Ed; simpl negb; cbv iota.
      * destruct (path d) as [p|] eqn:Ep.
        -- destruct (save d w) as [[r d'] w'] eqn:Es; simpl fst.
           apply (save_clean d s w r d' w'); [rewrite Ed; exact IH | exact Es].
        -- destruct (cwd w) as [dir|]; [destruct (fs_write _ _ _)|]; simpl fst;
             intros Hc; rewrite Ed in Hc; discriminate.
      * simpl fst; intros _; exact (IH eq_refl).
  - intros e He; unfold undo.
    destruct (undo_stack e) as [|x l] eqn:Eu using rev_ind; [contradiction|].
    change (l ++ [x]) with (vec_push l x); rewrite vec_pop_push; reflexivity.
  - intros e He; unfold redo.
    destruct (redo_stack e) as [|x l] eqn:Eu using rev_ind; [contradiction|].
    change (l ++ [x]) with (vec_push l x); rewrite vec_pop_push; reflexivity.
Qed.

(** A writable home directory, and an untitled document edited to "a" and
    saved as [/home/u/f.txt]. *)
Definition w_home : World := mkWorld (Some (lit "/home/u")) [] [] [] [].

Definition saved_doc_run : result unit * Document * World :=
  save_as (lit "/home/u/f.txt") (set_text (lit "a") (new_untitled 1)) w_home.

Lemma saved_doc_reachable :
  doc_reachable (snd (fst saved_doc_run))
    (saved_after (set_path (Some (lit "/home/u/f.txt")) (set_text (lit "a") (new_untitled 1)))
                 (fst (fst saved_doc_run)) None).
Proof.
  apply (dr_save_as (set_text (lit "a") (new_untitled 1)) None (lit "/home/u/f.txt") w_home
           (fst (fst saved_doc_run)) (snd (fst saved_doc_run)) (snd saved_doc_run)).
  - apply dr_set_text, dr_new.
  - vm_compute; reflexivity.
Qed.

Lemma clean_means_saved_witness :
  text (snd (fst saved_doc_run)) = lit "a" /\
  dirty (undo (set_text (lit "b") (snd (fst saved_doc_run)))) = true.
Proof.
  destruct clean_means_saved as (H1 & H2 & _).
  split.
  - rewrite (H1 _ _ saved_doc_reachable ltac:(vm_compute; reflexivity)); vm_compute; reflexivity.
  - apply H2; vm_compute; discriminate.
Defined.

(** C4: [dirty] is not "the text differs from the last save": after
    saving "a", editing to "b" and undoing, the text is the saved "a" and
    [dirty] is still set. *)
Lemma dirty_after_undo_to_saved :
  ~ (forall d s, doc_reachable d s ->
       (dirty d = true <-> match s with None => True | Some t => text d <> t end)).
Proof.
  intros H.
  specialize (H _ _ (dr_undo _ _ (dr_set_text _ _ (lit "b") saved_doc_reachable))).
  vm_compute in H; destruct H as [H _].
  exact (H eq_refl eq_refl).
Qed.

(** ** The tab list *)

Section Tabs.

Lemma update_nth_length {A} (f : A -> A) : forall l i l',
  update_nth i f l = Some l' -> List.length l' = List.length l.
Proof.
  induction l as [|x l IH]; intros [|i] l' H; simpl in H; try discriminate.
  - injection H as <-; reflexivity.
  - destruct (update_nth i f l) as [l1|] eqn:E; simpl in H; [|discriminate].
    injection H as <-; simpl; rewrite (IH i l1 E); reflexivity.
Qed.

Lemma autosave_docs_length : forall ds w,
  List.length (fst (autosave_docs ds w)) = List.length ds.
Proof.
  induction ds as [|d ds IH]; intros w; [reflexivity|]; simpl.
  destruct (autosave_doc d w) as [d' w1].
  specialize (IH w1); destruct (autosave_docs ds w1) as [ds'' w2]; simpl in *.
  rewrite IH; reflexivity.
Qed.

Lemma remove_at_length {A} (idx : nat) (l : list A) :
  idx < List.length l -> List.length (remove_at idx l) = List.length l - 1.
Proof.
  intros H; unfold remove_at; rewrite length_app, length_firstn, length_skipn; lia.
Qed.

(** What the loop of [tabs_bar] can select: a tab index, and a close only
    when more than one tab is open. *)
Definition clicks_ok (len : nat) (acc : option nat * option nat) : Prop :=
  (forall i, fst acc = Some i -> i < len) /\
  (forall i, snd acc = Some i -> i < len /\ 1 < len).

Lemma tab_clicks_ok lc cc len : forall l acc,
  (forall i, In i l -> i < len) -> clicks_ok len acc ->
  clicks_ok len (fold_left (tab_clicks lc cc len) l acc).
Proof.
  induction l as [|x l IH]; intros acc Hl [H1 H2]; simpl; [split; assumption|].
  apply IH; [intros i Hi; apply Hl; right; exact Hi|].
  assert (Hx : x < len) by (apply Hl; left; reflexivity).
  unfold tab_clicks; split; simpl.
  - destruct (lc x); [intros i E; injection E as <-; exact Hx | exact H1].
  - destruct (cc x && (1 <? len)) eqn:E; [| exact H2].
    apply andb_true_iff in E as [_ E]; apply Nat.ltb_lt in E.
    intros i Ei; injection Ei as <-; split; assumption.
Qed.

Lemma tabs_bar_clicks lc cc a :
  clicks_ok (List.length (docs a))
    (fold_left (tab_clicks lc cc (List.length (docs a))) (seq 0 (List.length (docs a))) (None, None)).
Proof.
  apply tab_clicks_ok.
  - intros i Hi; apply in_seq in Hi; lia.
  - split; intros i E; discriminate.
Qed.

Definition app_inv (a : App) : Prop := docs a <> [] /\ active_doc a < List.length (docs a).

Lemma tabs_bar_inv lc cc a : app_inv a -> app_inv (tabs_bar lc cc a).
Proof.
  intros [Hne Hlt]; unfold tabs_bar.
  pose proof (tabs_bar_clicks lc cc a) as [H1 H2].
  destruct (fold_left _ _ _) as [na tc]; simpl in H1, H2.
  assert (Ha1 : forall a1, docs a1 = docs a -> active_doc a1 < List.length (docs a) ->
            app_inv (match tc with
                     | Some idx =>
                         let ds := remove_at idx (docs a1) in
                         let act := if List.length ds <=? active_doc a1
                                    then List.length ds - 1 else active_doc a1 in
                         mkApp ds act (next_doc_id a1) (autosave_interval a1) (last_autosave a1)
                     | None => a1
                     end)).
  { intros a1 Hd Ha; destruct tc as [idx|].
    - destruct (H2 idx eq_refl) as [Hi Hl].
      cbv zeta; rewrite Hd; unfold app_inv; simpl.
      assert (HL : List.length (remove_at idx (docs a)) = List.length (docs a) - 1)
        by (apply remove_at_length; exact Hi).
      split.
      + intros E; rewrite E in HL; simpl in HL; lia.
      + destruct (Nat.leb_spec (List.length (remove_at idx (docs a))) (active_doc a1)); lia.
    - unfold app_inv; rewrite Hd; split; assumption. }
  destruct na as [i|]; apply Ha1; simpl; try reflexivity; auto.
Qed.

Lemma tabs_bar_single lc cc a :
  app_inv a -> List.length (docs a) = 1 -> tabs_bar lc cc a = a.
Proof.
  intros [Hne Hlt] H1len; unfold tabs_bar.
  pose proof (tabs_bar_clicks lc cc a) as [H1 H2].
  destruct (fold_left _ _ _) as [na tc]; simpl in H1, H2.
  destruct tc as [idx|]; [destruct (H2 idx eq_refl); lia|].
  destruct na as [i|]; [|reflexivity].
  specialize (H1 i eq_refl).
  destruct a as [ds act nid iv la]; simpl in *; unfold set_active; simpl.
  f_equal; lia.
Qed.

Lemma app_reachable_inv a : app_reachable a -> app_inv a.
Proof.
  induction 1 as [now | a H IH | a p w H IH | a f a' H IH Hc | a lc cc H IH | a now w H IH].
  - split; [discriminate | simpl; lia].
  - unfold menu_new, app_inv; simpl; rewrite length_app; simpl; split; [|lia].
    intros E; apply app_eq_nil in E as [_ E]; discriminate.
  - unfold menu_open; destruct (from_file _ _ _) as [d|e]; [|exact IH].
    unfold app_inv; simpl; rewrite length_app; simpl; split; [|lia].
    intros E; apply app_eq_nil in E as [_ E]; discriminate.
  - unfold on_current in Hc.
    destruct (update_nth _ _ _) as [ds|] eqn:E; simpl in Hc; [|discriminate].
    injection Hc as <-; apply update_nth_length in E.
    destruct IH as [Hne Hlt]; unfold app_inv; simpl; rewrite E; split; [|exact Hlt].
    intros ->; simpl in E; destruct (docs a); [contradiction | discriminate].
  - apply tabs_bar_inv; exact IH.
  - unfold handle_autosave.
    destruct (autosave_interval a <=? now - last_autosave a); [|exact IH].
    pose proof (autosave_docs_length (docs a) w) as HL.
    destruct (autosave_docs (docs a) w) as [ds w']; simpl in *.
    destruct IH as [Hne Hlt]; unfold app_inv; simpl; rewrite HL; split; [|exact Hlt].
    intros ->; simpl in HL; destruct (docs a); [contradiction | discriminate].
Qed.

End Tabs.

(** C5: in every reachable state of the application the tab list is not
    empty and [active_doc] is a valid index; with a single tab the tab bar
    changes nothing (its close button is disabled), and after any frame of
    the tab bar, a close included, [active_doc] is still valid. *)
Theorem active_index_valid (a : App) :
  app_reachable a ->
  (docs a <> [] /\ active_doc a < List.length (docs a)) /\
  (forall lc cc, List.length (docs a) = 1 -> tabs_bar lc cc a = a) /\
  (forall lc cc, docs (tabs_bar lc cc a) <> [] /\
                 active_doc (tabs_bar lc cc a) < List.length (docs (tabs_bar lc cc a))).
Proof.
  intros H; pose proof (app_reachable_inv a H) as Hi.
  split; [exact Hi | split].
  - intros lc cc; apply tabs_bar_single; exact Hi.
  - intros lc cc; apply tabs_bar_inv; exact Hi.
Qed.

(** Two tabs, the second active; closing it makes the first active. *)
Lemma active_index_valid_witness :
  tabs_bar (fun _ => false) (fun i => i =? 1) (menu_new (app_new 0)) =
    mkApp [new_untitled 1] 0 3 60 0 /\
  tabs_bar (fun _ => true) (fun _ => true) (app_new 0) = app_new 0.
Proof.
  assert (R : app_reachable (menu_new (app_new 0))) by (apply ar_new, ar_init).
  destruct (active_index_valid _ R) as (_ & _ & H3).
  destruct (active_index_valid _ (ar_init 0)) as (_ & H2 & _).
  split.
  - destruct (H3 (fun _ => false) (fun i => i =? 1)) as [_ Hlt]; clear Hlt.
    vm_compute; reflexivity.
  - apply H2; reflexivity.
Defined.

(** ** Saving *)

Lemma save_err d w e d' w' : save d w = (Err e, d', w') -> d' = d.
Proof.
  unfold save; destruct (path d) as [p|]; [|intros E; discriminate].
  unfold fs_write; destruct (existsb _ _); [destruct (assoc_lookup _ _)|]; intros E;
    [injection E as _ <- _ | injection E as _ <- _ | discriminate]; reflexivity.
Qed.

Lemma file_lookup_last p c fs : file_lookup p (fs ++ [(p, c)]) = Some c.
Proof. unfold file_lookup; rewrite fold_left_app; simpl; rewrite str_eqb_refl; reflexivity. Qed.

(** C6: [save] on a document without a path succeeds, writes nothing and
    changes nothing. *)
Theorem save_untitled_noop (d : Document) (w : World) :
  path d = None -> save d w = (Ok tt, d, w).
Proof. intros H; unfold save; rewrite H; reflexivity. Qed.

Lemma save_untitled_noop_witness :
  save (set_text (lit "x") (new_untitled 4)) w_home = (Ok tt, set_text (lit "x") (new_untitled 4), w_home).
Proof. apply save_untitled_noop; reflexivity. Defined.

(** C7: after [save_as p] succeeds the path is [p], the document is clean,
    its text is unchanged and the full text is written to [p]. *)
Theorem save_as_success (p : PathBuf) (d : Document) (w : World) (d' : Document) (w' : World) :
  save_as p d w = (Ok tt, d', w') ->
  path d' = Some p /\ dirty d' = false /\ text d' = text d /\
  files w' = files w ++ [(p, text d)] /\ file_lookup p (files w') = Some (text d).
Proof.
  unfold save_as, save; simpl path; unfold fs_write; simpl text.
  destruct (existsb (str_eqb p) (read_only w)); [destruct (assoc_lookup _ _); intros E; discriminate|].
  intros E; injection E as <- <-; simpl; repeat split.
  apply file_lookup_last.
Qed.

Lemma save_as_success_witness :
  path (snd (fst saved_doc_run)) = Some (lit "/home/u/f.txt") /\
  dirty (snd (fst saved_doc_run)) = false /\
  files (snd saved_doc_run) = [(lit "/home/u/f.txt", lit "a")].
Proof.
  destruct (save_as_success (lit "/home/u/f.txt") (set_text (lit "a") (new_untitled 1)) w_home
              (snd (fst saved_doc_run)) (snd saved_doc_run) ltac:(vm_compute; reflexivity))
    as (H1 & H2 & _ & H4 & _).
  split; [exact H1 | split; [exact H2 |]].
  rewrite H4; vm_compute; reflexivity.
Defined.

(** C8: when [save] or [save_as] fails, the error is returned, a dirty
    document stays dirty and its text and history are unchanged. *)
Theorem save_failure_keeps_buffer (d : Document) (w : World) (p : PathBuf) (e : IoError)
  (d' : Document) (w' : World) :
  dirty d = true ->
  (save d w = (Err e, d', w') \/ save_as p d w = (Err e, d', w')) ->
  dirty d' = true /\ text d' = text d /\
  undo_stack d' = undo_stack d /\ redo_stack d' = redo_stack d.
Proof.
  intros Hd [E | E]; apply save_err in E as ->; repeat split; exact Hd.
Qed.

(** A read-only target. *)
Definition w_locked : World := mkWorld (Some (lit "/home/u")) [lit "/etc/f.txt"] [] [] [].

Lemma save_failure_keeps_buffer_witness :
  save_as (lit "/etc/f.txt") (set_text (lit "a") (new_untitled 1)) w_locked =
    (Err PermissionDenied, set_path (Some (lit "/etc/f.txt")) (set_text (lit "a") (new_untitled 1)), w_locked) /\
  dirty (set_path (Some (lit "/etc/f.txt")) (set_text (lit "a") (new_untitled 1))) = true /\
  text (set_path (Some (lit "/etc/f.txt")) (set_text (lit "a") (new_untitled 1))) = lit "a".
Proof.
  assert (E : save_as (lit "/etc/f.txt") (set_text (lit "a") (new_untitled 1)) w_locked =
    (Err PermissionDenied, set_path (Some (lit "/etc/f.txt")) (set_text (lit "a") (new_untitled 1)), w_locked))
    by (vm_compute; reflexivity).
  destruct (save_failure_keeps_buffer (set_text (lit "a") (new_untitled 1)) w_locked (lit "/etc/f.txt")
              PermissionDenied _ _ ltac:(vm_compute; reflexivity) (or_intror E)) as (H1 & H2 & _).
  split; [exact E | split; [exact H1 | rewrite H2; vm_compute; reflexivity]].
Defined.

(** C10: a failed [save_as p] has already set the path to [p]. *)
Theorem save_as_failure_sets_path (p : PathBuf) (d : Document) (w : World) (e : IoError)
  (d' : Document) (w' : World) :
  save_as p d w = (Err e, d', w') -> path d' = Some p.
Proof. intros E; apply save_err in E as ->; reflexivity. Qed.

Lemma save_as_failure_sets_path_witness :
  path (new_untitled 1) = None /\
  path (snd (fst (save_as (lit "/etc/f.txt") (new_untitled 1) w_locked))) = Some (lit "/etc/f.txt").
Proof.
  split; [reflexivity|].
  apply (save_as_failure_sets_path (lit "/etc/f.txt") (new_untitled 1) w_locked PermissionDenied
           _ (snd (save_as (lit "/etc/f.txt") (new_untitled 1) w_locked))).
  vm_compute; reflexivity.
Defined.

(** ** Autosave *)

Section Autosave.

(** [w'] is [w] after some more writes. *)
Definition extends (w w' : World) : Prop :=
  cwd w' = cwd w /\ read_only w' = read_only w /\ exists log, files w' = files w ++ log.

Lemma extends_refl w : extends w w.
Proof. repeat split; exists []; rewrite app_nil_r; reflexivity. Qed.

Lemma extends_trans w1 w2 w3 : extends w1 w2 -> extends w2 w3 -> extends w1 w3.
Proof.
  intros (C1 & R1 & l1 & F1) (C2 & R2 & l2 & F2); repeat split; try congruence.
  exists (l1 ++ l2); rewrite F2, F1, app_assoc; reflexivity.
Qed.

Lemma fs_write_extends p c w : extends w (snd (fs_write p c w)).
Proof.
  unfold fs_write; destruct (existsb _ _); [destruct (assoc_lookup _ _) as [k|]; [|apply extends_refl]|].
  - repeat split; exists [(p, firstn k c)]; reflexivity.
  - repeat split; exists [(p, c)]; reflexivity.
Qed.

Lemma save_extends d w : extends w (snd (save d w)).
Proof.
  unfold save; destruct (path d) as [p|]; [|apply extends_refl].
  pose proof (fs_write_extends p (text d) w) as H.
  destruct (fs_write p (text d) w) as [[u|e] w1]; exact H.
Qed.

Lemma autosave_doc_extends d w : extends w (snd (autosave_doc d w)).
Proof.
  unfold autosave_doc; destruct (negb (dirty d)); [apply extends_refl|].
  destruct (path d) as [p|].
  - pose proof (save_extends d w) as H; destruct (save d w) as [[r d'] w']; exact H.
  - destruct (cwd w) as [dir|]; [|apply extends_refl].
    pose proof (fs_write_extends (path_push dir (autosave_file_name (id d))) (text d) w) as H.
    destruct (fs_write _ _ _) as [r w']; exact H.
Qed.

Lemma autosave_docs_extends : forall ds w, extends w (snd (autosave_docs ds w)).
Proof.
  induction ds as [|d ds IH]; intros w; simpl; [apply extends_refl|].
  pose proof (autosave_doc_extends d w) as H1.
  destruct (autosave_doc d w) as [d' w1].
  specialize (IH w1); destruct (autosave_docs ds w1) as [ds'' w2].
  exact (extends_trans _ _ _ H1 IH).
Qed.

(** An untitled dirty document: kept as it is, its text written to its
    scratch file when the directory is known and the write succeeds. *)
Lemma autosave_doc_untitled d w :
  dirty d = true -> path d = None ->
  fst (autosave_doc d w) = d /\
  (forall dir, cwd w = Some dir ->
     existsb (str_eqb (path_push dir (autosave_file_name (id d)))) (read_only w) = false ->
     files (snd (autosave_doc d w)) = files w ++ [(path_push dir (autosave_file_name (id d)), text d)]).
Proof.
  intros Hd Hp; unfold autosave_doc; rewrite Hd, Hp; simpl negb; cbv iota.
  split.
  - destruct (cwd w) as [dir|]; [destruct (fs_write _ _ _)|]; reflexivity.
  - intros dir Hc Hr; rewrite Hc; unfold fs_write; rewrite Hr; reflexivity.
Qed.

Lemma autosave_docs_untitled : forall ds w i d,
  nth_error ds i = Some d -> dirty d = true -> path d = None ->
  nth_error (fst (autosave_docs ds w)) i = Some d /\
  (forall dir, cwd w = Some dir ->
     existsb (str_eqb (path_push dir (autosave_file_name (id d)))) (read_only w) = false ->
     exists log, files (snd (autosave_docs ds w)) = files w ++ log /\
                 In (path_push dir (autosave_file_name (id d)), text d) log).
Proof.
  induction ds as [|d0 ds IH]; intros w i d Hn Hd Hp; [destruct i; discriminate|].
  simpl.
  pose proof (autosave_doc_extends d0 w) as E1.
  destruct i as [|i]; simpl in Hn.
  - injection Hn as ->.
    destruct (autosave_doc_untitled d w Hd Hp) as [H1 H2].
    destruct (autosave_doc d w) as [d' w1]; simpl in H1, H2, E1; subst d'.
    pose proof (autosave_docs_extends ds w1) as E2.
    destruct (autosave_docs ds w1) as [ds'' w2]; simpl in *.
    split; [reflexivity|].
    intros dir Hc Hr; destruct E2 as (_ & _ & l2 & F2).
    exists ((path_push dir (autosave_file_name (id d)), text d) :: l2).
    split; [rewrite F2, (H2 dir Hc Hr), <- app_assoc; reflexivity | left; reflexivity].
  - destruct (autosave_doc d0 w) as [d0' w1]; simpl in E1.
    destruct (IH w1 i d Hn Hd Hp) as [H1 H2].
    destruct (autosave_docs ds w1) as [ds'' w2]; simpl in *.
    split; [exact H1|].
    intros dir Hc Hr; destruct E1 as (C1 & R1 & l1 & F1).
    destruct (H2 dir ltac:(rewrite C1; exact Hc) ltac:(rewrite R1; exact Hr)) as (l2 & F2 & Hin).
    exists (l1 ++ l2); split; [rewrite F2, F1, app_assoc; reflexivity | apply in_or_app; right; exact Hin].
Qed.

End Autosave.

(** C9: a due autosave sweep keeps every dirty untitled document as it is
    (still dirty, still without a path) and, when the current directory is
    known and the write succeeds, writes its text to [autosave_<id>.txt]
    in that directory. *)
Theorem autosave_untitled_scratch (now : nat) (a : App) (w : World) (i : nat) (d : Document) :
  autosave_interval a <= now - last_autosave a ->
  nth_error (docs a) i = Some d -> dirty d = true -> path d = None ->
  nth_error (docs (fst (handle_autosave now a w))) i = Some d /\
  (forall dir, cwd w = Some dir ->
     existsb (str_eqb (path_push dir (autosave_file_name (id d)))) (read_only w) = false ->
     exists log, files (snd (handle_autosave now a w)) = files w ++ log /\
                 In (path_push dir (autosave_file_name (id d)), text d) log).
Proof.
  intros Hdue Hn Hd Hp; unfold handle_autosave.
  apply Nat.leb_le in Hdue; rewrite Hdue.
  pose proof (autosave_docs_untitled (docs a) w i d Hn Hd Hp) as H.
  destruct (autosave_docs (docs a) w) as [ds w']; exact H.
Qed.

(** The scenario of the spec: two dirty untitled documents, ids 3 and 5. *)
Definition two_untitled : App :=
  mkApp [set_text (lit "x") (new_untitled 3); set_text (lit "y") (new_untitled 5)] 0 6 60 0.

Lemma autosave_untitled_scratch_witness :
  path_push (lit "/home/u") (autosave_file_name 3) = lit "/home/u/autosave_3.txt" /\
  path_push (lit "/home/u") (autosave_file_name 5) = lit "/home/u/autosave_5.txt" /\
  nth_error (docs (fst (handle_autosave 60 two_untitled w_home))) 0
    = Some (set_text (lit "x") (new_untitled 3)) /\
  nth_error (docs (fst (handle_autosave 60 two_untitled w_home))) 1
    = Some (set_text (lit "y") (new_untitled 5)) /\
  (exists log, files (snd (handle_autosave 60 two_untitled w_home)) = log /\
     In (path_push (lit "/home/u") (autosave_file_name 3), lit "x") log /\
     In (path_push (lit "/home/u") (autosave_file_name 5), lit "y") log).
Proof.
  destruct (autosave_untitled_scratch 60 two_untitled w_home 0 (set_text (lit "x") (new_untitled 3))
              ltac:(simpl; lia) eq_refl eq_refl eq_refl) as [H0 K0].
  destruct (autosave_untitled_scratch 60 two_untitled w_home 1 (set_text (lit "y") (new_untitled 5))
              ltac:(simpl; lia) eq_refl eq_refl eq_refl) as [H1 K1].
  destruct (K0 (lit "/home/u") eq_refl ltac:(vm_compute; reflexivity)) as (l0 & F0 & I0).
  destruct (K1 (lit "/home/u") eq_refl ltac:(vm_compute; reflexivity)) as (l1 & F1 & I1).
  split; [vm_compute; reflexivity | split; [vm_compute; reflexivity | split; [exact H0 | split; [exact H1 |]]]].
  change (files w_home) with (@nil (PathBuf * str)) in F0, F1.
  rewrite app_nil_l in F0, F1.
  assert (E : l1 = l0) by congruence; subst l1.
  rewrite F0 in I1; exists l0; split; [exact F0 | split; [exact I0 | exact I1]].
Defined.

(** * Further properties of the code *)

(** ** Undo and redo compose *)

(** X1: an undo followed by a redo, or a redo followed by an undo, gives
    back the document, marked dirty. *)
Theorem undo_redo_roundtrip (d : Document) :
  (undo_stack d <> [] -> redo (undo d) = set_dirty true d) /\
  (redo_stack d <> [] -> undo (redo d) = set_dirty true d).
Proof.
  split; intros H.
  - destruct (undo_stack d) as [|x l] eqn:E using rev_ind; [contradiction|].
    unfold undo; rewrite E; change (l ++ [x]) with (vec_push l x); rewrite vec_pop_push.
    unfold redo; cbn [redo_stack undo_stack text]; rewrite vec_pop_push.
    unfold set_dirty, vec_push; rewrite E; reflexivity.
  - destruct (redo_stack d) as [|x l] eqn:E using rev_ind; [contradiction|].
    unfold redo; rewrite E; change (l ++ [x]) with (vec_push l x); rewrite vec_pop_push.
    unfold undo; cbn [redo_stack undo_stack text]; rewrite vec_pop_push.
    unfold set_dirty, vec_push; rewrite E; reflexivity.
Qed.

Lemma undo_redo_roundtrip_witness :
  redo (undo (set_text (lit "a") (new_untitled 1))) = set_dirty true (set_text (lit "a") (new_untitled 1)) /\
  undo (redo (undo (set_text (lit "a") (new_untitled 1)))) =
    set_dirty true (undo (set_text (lit "a") (new_untitled 1))).
Proof.
  split.
  - apply (proj1 (undo_redo_roundtrip _)); vm_compute; discriminate.
  - apply (proj2 (undo_redo_roundtrip _)); vm_compute; discriminate.
Defined.

(** X2: undoing an edit restores the text and the undo stack before it and
    leaves the edit alone on the redo stack; redoing it then gives exactly
    the document after the edit. *)
Theorem undo_of_edit (d : Document) (v : str) :
  v <> text d ->
  undo (set_text v d) = mkDocument (id d) (path d) (title d) (text d) (undo_stack d) [v] true /\
  redo (undo (set_text v d)) = set_text v d.
Proof.
  intros Hv; rewrite set_text_changed by exact Hv.
  assert (U : undo (mkDocument (id d) (path d) (title d) v (undo_stack d ++ [text d]) [] true) =
              mkDocument (id d) (path d) (title d) (text d) (undo_stack d) [v] true).
  { unfold undo; cbn [undo_stack]; change (undo_stack d ++ [text d]) with (vec_push (undo_stack d) (text d)).
    rewrite vec_pop_push; reflexivity. }
  split; [exact U|]; rewrite U.
  unfold redo; cbn [redo_stack]; change [v] with (vec_push (@nil str) v); rewrite vec_pop_push.
  reflexivity.
Qed.

Lemma undo_of_edit_witness :
  redo (undo (set_text (lit "b") (set_text (lit "a") (new_untitled 1)))) =
    set_text (lit "b") (set_text (lit "a") (new_untitled 1)).
Proof.
  apply (proj2 (undo_of_edit (set_text (lit "a") (new_untitled 1)) (lit "b")
                  ltac:(vm_compute; discriminate))).
Defined.

(** ** Replace-all *)

(** X3: for a non-empty needle, [str::replace] changes the length by
    [|replacement| - |needle|] per counted match. *)
Theorem str_replace_length (needle repl s : str) :
  needle <> [] ->
  List.length (str_replace needle repl s) + str_matches_count needle s * List.length needle
  = List.length s + str_matches_count needle s * List.length repl.
Proof.
  intros Hn; pose proof (replace_from_length needle repl Hn s 0) as H.
  unfold str_replace, str_matches_count; simpl Nat.min in H; lia.
Qed.

Lemma str_replace_length_witness :
  List.length (str_replace (lit "foo") (lit "quux") (lit "foo bar foo")) + 2 * 3 = 11 + 2 * 4.
Proof.
  pose proof (str_replace_length (lit "foo") (lit "quux") (lit "foo bar foo") ltac:(discriminate)) as H.
  exact H.
Defined.

Lemma replace_from_skipn (needle repl : str) : forall s k,
  replace_from k needle repl s = replace_from 0 needle repl (skipn k s).
Proof.
  induction s as [|c s IH]; intros k.
  - destruct k; reflexivity.
  - destruct k as [|k]; [reflexivity|].
    cbn [replace_from skipn]; apply IH.
Qed.

Lemma str_replace_self (needle : str) : needle <> [] -> forall s, str_replace needle needle s = s.
Proof.
  intros Hn s; unfold str_replace.
  induction s as [s IH] using (well_founded_induction (Wf_nat.well_founded_ltof _ (@List.length ascii))).
  unfold Wf_nat.ltof in IH.
  destruct s as [|c s']; [reflexivity|].
  cbn [replace_from].
  destruct (starts_with needle (c :: s')) eqn:E.
  - apply starts_with_app in E as [r Hr].
    destruct needle as [|x n']; [contradiction|].
    injection Hr as -> Hs'; subst s'.
    rewrite replace_from_skipn.
    replace (List.length (x :: n') - 1) with (List.length n') by (simpl; lia).
    rewrite skipn_app, skipn_all, Nat.sub_diag; simpl skipn.
    rewrite IH; [reflexivity | simpl; rewrite length_app; lia].
  - f_equal; apply IH; simpl; lia.
Qed.

(** X4: replacing a needle by itself reports the number of matches but
    leaves the document as it is: no undo entry, [dirty] untouched. *)
Theorem replace_all_same (needle : str) (d : Document) :
  needle <> [] -> replace_all needle needle d = (str_matches_count needle (text d), d).
Proof.
  intros Hn.
  assert (E : replace_all needle needle d =
              let count := str_matches_count needle (text d) in
              if 0 <? count then (count, set_text (str_replace needle needle (text d)) d)
              else (count, d))
    by (destruct needle; [contradiction | reflexivity]).
  rewrite E; cbv zeta; rewrite (str_replace_self needle Hn).
  destruct (0 <? _); [| reflexivity].
  unfold set_text; rewrite str_eqb_refl; reflexivity.
Qed.

Lemma replace_all_same_witness :
  replace_all (lit "foo") (lit "foo") foo_doc = (2, foo_doc).
Proof. rewrite (replace_all_same (lit "foo") foo_doc ltac:(discriminate)); reflexivity. Defined.

(** ** Files *)





Lemma last_component_app : forall l n acc,
  last_component (l ++ "/"%char :: n) acc = last_component n [].
Proof.
  induction l as [|c l IH]; intros n acc; simpl; [reflexivity|].
  destruct (Ascii.eqb c "/"); apply IH.
Qed.

Lemma last_component_plain : forall n acc,
  ~ In "/"%char n -> last_component n acc = acc ++ n.
Proof.
  induction n as [|c n IH]; intros acc Hn; simpl; [rewrite app_nil_r; reflexivity|].
  assert (Hc : Ascii.eqb c "/" = false)
    by (apply Ascii.eqb_neq; intros ->; apply Hn; left; reflexivity).
  rewrite Hc, IH by (intros H; apply Hn; right; exact H).
  rewrite <- app_assoc; reflexivity.
Qed.

(** X6: a document opened from [dir/name], with [name] a non-empty file
    name, is titled [name] when the name is valid UTF-8 and "Документ"
    otherwise. *)
Theorem from_file_title (i : nat) (dir n : str) (w : World) (d : Document) :
  n <> [] -> ~ In "/"%char n ->
  from_file i (dir ++ "/"%char :: n) w = Ok d ->
  title d = if utf8_valid n then n else lit "Документ".
Proof.
  intros Hne Hn; unfold from_file, file_name.
  rewrite last_component_app, last_component_plain by exact Hn; simpl app.
  destruct (fs_read_to_string _ _) as [t|e]; intros E; [|discriminate].
  injection E as <-; simpl; destruct n as [|c n]; [contradiction|].
  unfold os_str_to_str; destruct (utf8_valid (c :: n)); reflexivity.
Qed.

Lemma from_file_title_witness :
  title foo_doc = lit "a.txt".
Proof.
  change (lit "a.txt") with (if utf8_valid (lit "a.txt") then lit "a.txt" else lit "Документ").
  apply (from_file_title 3 (lit "/home/u") (lit "a.txt")
           (mkWorld None [] [] [] [(lit "/home/u/a.txt", lit "foo bar foo")]) foo_doc).
  - discriminate.
  - simpl; intuition discriminate.
  - vm_compute; reflexivity.
Defined.

Lemma dec_aux_value : forall fuel n acc,
  n < fuel -> fold_left digit_step (dec_aux fuel n acc) 0 = fold_left digit_step acc n.
Proof.
  induction fuel as [|fuel IH]; intros n acc H; [lia|].
  cbn [dec_aux].
  assert (Hm : n mod 10 < 10) by (apply Nat.mod_upper_bound; lia).
  assert (Hd : digit_step 0 (ascii_of_nat (48 + n mod 10)) = n mod 10).
  { unfold digit_step; rewrite nat_ascii_embedding by lia; lia. }
  destruct (n <? 10) eqn:E.
  - apply Nat.ltb_lt in E; cbn [fold_left]; rewrite Hd, Nat.mod_small by exact E; reflexivity.
  - apply Nat.ltb_ge in E.
    rewrite IH by (apply Nat.lt_le_trans with n; [apply Nat.div_lt; lia | lia]).
    cbn [fold_left]; f_equal.
    unfold digit_step at 1; rewrite nat_ascii_embedding by lia.
    pose proof (Nat.div_mod_eq n 10); lia.
Qed.

(** X7: [usize_to_string] writes the decimal digits of its number, so two
    documents with different ids never share an autosave scratch file
    name. *)
Theorem autosave_file_name_injective (n m : nat) :
  decimal_value (usize_to_string n) = n /\
  (autosave_file_name n = autosave_file_name m -> n = m).
Proof.
  assert (V : forall k, decimal_value (usize_to_string k) = k)
    by (intros k; unfold decimal_value, usize_to_string; rewrite dec_aux_value by lia; reflexivity).
  split; [apply V|].
  unfold autosave_file_name; intros E.
  apply app_inv_head in E; apply app_inv_tail in E.
  rewrite <- (V n), <- (V m), E; reflexivity.
Qed.

Lemma autosave_file_name_injective_witness :
  decimal_value (usize_to_string 305) = 305 /\ usize_to_string 305 = lit "305" /\
  (autosave_file_name 35 = autosave_file_name 35 -> 35 = 35).
Proof.
  destruct (autosave_file_name_injective 305 305) as [H _].
  split; [exact H | split; [vm_compute; reflexivity |]].
  exact (proj2 (autosave_file_name_injective 35 35)).
Defined.

(** ** The tab bar *)

Section TabBar.

Lemma tab_clicks_fold lc cc len : forall n,
  fold_left (tab_clicks lc cc len) (seq 0 n) (None, None)
  = (last_true lc n, if 1 <? len then last_true cc n else None).
Proof.
  induction n as [|n IH]; [destruct (1 <? len); reflexivity|].
  rewrite seq_S, fold_left_app, IH; simpl.
  unfold tab_clicks; simpl.
  destruct (lc n), (cc n), (1 <? len); reflexivity.
Qed.

Lemma last_true_some f n i :
  i < n -> f i = true -> (forall j, i < j < n -> f j = false) -> last_true f n = Some i.
Proof.
  induction n as [|n IH]; intros Hi Hf Hj; [lia|].
  simpl; destruct (Nat.eq_dec i n) as [->|Hne]; [rewrite Hf; reflexivity|].
  rewrite (Hj n ltac:(lia)); apply IH; [lia | exact Hf | intros j Hj'; apply Hj; lia].
Qed.

Lemma last_true_none f n : (forall j, j < n -> f j = false) -> last_true f n = None.
Proof.
  induction n as [|n IH]; intros H; [reflexivity|].
  simpl; rewrite (H n ltac:(lia)); apply IH; intros j Hj; apply H; lia.
Qed.


End TabBar.

(** X8: the tab bar closes the last tab whose close button was clicked in
    the frame, and only when more than one tab is open; otherwise it keeps
    the tabs and selects the last clicked label (or keeps the active tab). *)
Theorem tabs_bar_effect (lc cc : nat -> bool) (a : App) :
  (forall idx, idx < List.length (docs a) -> 1 < List.length (docs a) -> cc idx = true ->
     (forall j, idx < j < List.length (docs a) -> cc j = false) ->
     docs (tabs_bar lc cc a) = remove_at idx (docs a)) /\
  ((List.length (docs a) <= 1 \/ forall j, j < List.length (docs a) -> cc j = false) ->
     docs (tabs_bar lc cc a) = docs a /\
     ((forall j, j < List.length (docs a) -> lc j = false) -> active_doc (tabs_bar lc cc a) = active_doc a) /\
     (forall i, i < List.length (docs a) -> lc i = true ->
        (forall j, i < j < List.length (docs a) -> lc j = false) -> active_doc (tabs_bar lc cc a) = i)).
Proof.
  split.
  - intros idx Hi H1 Hc Hj; unfold tabs_bar; rewrite tab_clicks_fold.
    apply Nat.ltb_lt in H1; rewrite H1, (last_true_some cc _ idx Hi Hc Hj).
    destruct (last_true lc _); reflexivity.
  - intros Hno.
    assert (E : (if 1 <? List.length (docs a) then last_true cc (List.length (docs a)) else None) = None).
    { destruct Hno as [Hle | Hn].
      - replace (1 <? List.length (docs a)) with false by (symmetry; apply Nat.ltb_ge; exact Hle).
        reflexivity.
      - rewrite (last_true_none cc _ Hn); destruct (1 <? _); reflexivity. }
    unfold tabs_bar; rewrite tab_clicks_fold, E.
    split; [destruct (last_true lc _); reflexivity | split].
    + intros Hl; rewrite (last_true_none lc _ Hl); reflexivity.
    + intros i Hi Hc Hj; rewrite (last_true_some lc _ i Hi Hc Hj); reflexivity.
Qed.

Lemma tabs_bar_effect_witness :
  docs (tabs_bar (fun _ => false) (fun i => i <=? 1) (menu_new (menu_new (app_new 0)))) =
    [new_untitled 1; new_untitled 3] /\
  active_doc (tabs_bar (fun i => i =? 0) (fun _ => false) (menu_new (app_new 0))) = 0.
Proof.
  split.
  - rewrite (proj1 (tabs_bar_effect (fun _ => false) (fun i => i <=? 1) (menu_new (menu_new (app_new 0))))
               1 ltac:(simpl; lia) ltac:(simpl; lia) eq_refl
               ltac:(intros j Hj; simpl in Hj; apply Nat.leb_gt; lia)).
    reflexivity.
  - apply (proj2 (proj2 (tabs_bar_effect (fun i => i =? 0) (fun _ => false) (menu_new (app_new 0)))
             ltac:(right; reflexivity))); [simpl; lia | reflexivity |].
    intros j Hj; apply Nat.eqb_neq; lia.
Defined.



(** ** The autosave sweep *)

Section AutosaveMore.

Lemma autosave_doc_shape d w :
  fst (autosave_doc d w) = d \/
  (dirty d = true /\ path d <> None /\ fst (autosave_doc d w) = set_dirty false d).
Proof.
  unfold autosave_doc; destruct (dirty d) eqn:Ed; simpl negb; cbv iota; [|left; reflexivity].
  destruct (path d) as [p|] eqn:Ep.
  - unfold save; rewrite Ep.
    destruct (fs_write p (text d) w) as [[u|e] w1]; simpl.
    + right; split; [reflexivity | split; [discriminate | reflexivity]].
    + left; reflexivity.
  - left; destruct (cwd w) as [dir|]; [destruct (fs_write _ _ _)|]; reflexivity.
Qed.

Lemma autosave_docs_shape : forall ds w i d,
  nth_error ds i = Some d ->
  nth_error (fst (autosave_docs ds w)) i = Some d \/
  (dirty d = true /\ path d <> None /\ nth_error (fst (autosave_docs ds w)) i = Some (set_dirty false d)).
Proof.
  induction ds as [|d0 ds IH]; intros w i d Hn; [destruct i; discriminate|].
  simpl; pose proof (autosave_doc_shape d0 w) as S0.
  destruct (autosave_doc d0 w) as [d0' w1]; simpl in S0.
  specialize (IH w1); destruct (autosave_docs ds w1) as [ds'' w2]; simpl in *.
  destruct i as [|i]; simpl in *.
  - injection Hn as ->; destruct S0 as [-> | (A & B & ->)]; [left | right]; auto.
  - apply IH; exact Hn.
Qed.

Lemma autosave_doc_titled d w p :
  dirty d = true -> path d = Some p -> existsb (str_eqb p) (read_only w) = false ->
  autosave_doc d w = (set_dirty false d, with_files (files w ++ [(p, text d)]) w).
Proof.
  intros Hd Hp Hr; unfold autosave_doc, save, fs_write; rewrite Hd, Hp, Hr; reflexivity.
Qed.

Lemma autosave_docs_titled : forall ds w i d p,
  nth_error ds i = Some d -> dirty d = true -> path d = Some p ->
  existsb (str_eqb p) (read_only w) = false ->
  nth_error (fst (autosave_docs ds w)) i = Some (set_dirty false d) /\
  exists log, files (snd (autosave_docs ds w)) = files w ++ log /\ In (p, text d) log.
Proof.
  induction ds as [|d0 ds IH]; intros w i d p Hn Hd Hp Hr; [destruct i; discriminate|].
  simpl.
  destruct i as [|i]; simpl in Hn.
  - injection Hn as ->.
    rewrite (autosave_doc_titled d w p Hd Hp Hr).
    pose proof (autosave_docs_extends ds (with_files (files w ++ [(p, text d)]) w))
      as (_ & _ & l2 & F2).
    destruct (autosave_docs ds _) as [ds'' w2]; simpl in *.
    split; [reflexivity|].
    exists ((p, text d) :: l2); split; [rewrite F2, <- app_assoc; reflexivity | left; reflexivity].
  - pose proof (autosave_doc_extends d0 w) as (C1 & R1 & l1 & F1).
    destruct (autosave_doc d0 w) as [d0' w1]; simpl in C1, R1, F1.
    destruct (IH w1 i d p Hn Hd Hp ltac:(rewrite R1; exact Hr)) as [H1 (l2 & F2 & Hin)].
    destruct (autosave_docs ds w1) as [ds'' w2]; simpl in *.
    split; [exact H1|].
    exists (l1 ++ l2); split; [rewrite F2, F1, app_assoc; reflexivity | apply in_or_app; right; exact Hin].
Qed.

End AutosaveMore.

(** X10: the autosave sweep keeps the tab list, the active tab, the id
    counter and the interval; each document is either unchanged or, when
    it was dirty and has a path, only marked clean; a due sweep records
    its time. *)
Theorem autosave_frame (now : nat) (a : App) (w : World) :
  List.length (docs (fst (handle_autosave now a w))) = List.length (docs a) /\
  active_doc (fst (handle_autosave now a w)) = active_doc a /\
  next_doc_id (fst (handle_autosave now a w)) = next_doc_id a /\
  autosave_interval (fst (handle_autosave now a w)) = autosave_interval a /\
  (autosave_interval a <= now - last_autosave a -> last_autosave (fst (handle_autosave now a w)) = now) /\
  (forall i d, nth_error (docs a) i = Some d ->
     nth_error (docs (fst (handle_autosave now a w))) i = Some d \/
     (dirty d = true /\ path d <> None /\
      nth_error (docs (fst (handle_autosave now a w))) i = Some (set_dirty false d))).
Proof.
  unfold handle_autosave.
  destruct (autosave_interval a <=? now - last_autosave a) eqn:E.
  - pose proof (autosave_docs_length (docs a) w) as HL.
    pose proof (autosave_docs_shape (docs a) w) as HS.
    destruct (autosave_docs (docs a) w) as [ds w']; simpl in *.
    repeat split; auto.
  - simpl; repeat split; auto.
    intros H; apply Nat.leb_le in H; congruence.
Qed.

Lemma autosave_frame_witness :
  last_autosave (fst (handle_autosave 60 two_untitled w_home)) = 60.
Proof.
  destruct (autosave_frame 60 two_untitled w_home) as (_ & _ & _ & _ & H & _).
  apply H; simpl; lia.
Defined.

(** X11: a due sweep saves every dirty document that has a path, when the
    write succeeds: its text is written to its path and it becomes clean. *)
Theorem autosave_saves_titled (now : nat) (a : App) (w : World) (i : nat) (d : Document) (p : PathBuf) :
  autosave_interval a <= now - last_autosave a ->
  nth_error (docs a) i = Some d -> dirty d = true -> path d = Some p ->
  existsb (str_eqb p) (read_only w) = false ->
  nth_error (docs (fst (handle_autosave now a w))) i = Some (set_dirty false d) /\
  exists log, files (snd (handle_autosave now a w)) = files w ++ log /\ In (p, text d) log.
Proof.
  intros Hdue Hn Hd Hp Hr; unfold handle_autosave.
  apply Nat.leb_le in Hdue; rewrite Hdue.
  pose proof (autosave_docs_titled (docs a) w i d p Hn Hd Hp Hr) as H.
  destruct (autosave_docs (docs a) w) as [ds w']; exact H.
Qed.

Definition one_titled : App :=
  mkApp [set_text (lit "x") (set_path (Some (lit "/home/u/f.txt")) (new_untitled 2))] 0 3 60 0.

Lemma autosave_saves_titled_witness :
  nth_error (docs (fst (handle_autosave 60 one_titled w_home))) 0 =
    Some (set_dirty false (set_text (lit "x") (set_path (Some (lit "/home/u/f.txt")) (new_untitled 2)))) /\
  files (snd (handle_autosave 60 one_titled w_home)) = [(lit "/home/u/f.txt", lit "x")].
Proof.
  destruct (autosave_saves_titled 60 one_titled w_home 0
              (set_text (lit "x") (set_path (Some (lit "/home/u/f.txt")) (new_untitled 2)))
              (lit "/home/u/f.txt") ltac:(simpl; lia) eq_refl eq_refl eq_refl eq_refl) as [H _].
  split; [exact H | vm_compute; reflexivity].
Defined.

(** X12: after a due sweep at [now], the autosave of any later frame
    before [now + interval] does nothing. *)
Theorem autosave_once_per_interval (now now' : nat) (a : App) (w : World) :
  autosave_interval a <= now - last_autosave a ->
  now' - now < autosave_interval a ->
  handle_autosave now' (fst (handle_autosave now a w)) (snd (handle_autosave now a w)) =
    (fst (handle_autosave now a w), snd (handle_autosave now a w)).
Proof.
  intros Hdue Hlt.
  assert (L : last_autosave (fst (handle_autosave now a w)) = now /\
              autosave_interval (fst (handle_autosave now a w)) = autosave_interval a).
  { unfold handle_autosave; apply Nat.leb_le in Hdue; rewrite Hdue.
    destruct (autosave_docs (docs a) w); split; reflexivity. }
  destruct (handle_autosave now a w) as [a1 w1]; simpl in *; destruct L as [L1 L2].
  unfold handle_autosave; rewrite L1, L2.
  replace (autosave_interval a <=? now' - now) with false by (symmetry; apply Nat.leb_gt; exact Hlt).
  reflexivity.
Qed.

Lemma autosave_once_per_interval_witness :
  handle_autosave 90 (fst (handle_autosave 60 two_untitled w_home)) (snd (handle_autosave 60 two_untitled w_home))
  = (fst (handle_autosave 60 two_untitled w_home), snd (handle_autosave 60 two_untitled w_home)).
Proof. apply autosave_once_per_interval; simpl; lia. Defined.

(** ** Sessions *)

Section Session.

(** Case analysis on every [match] and [if] of a goal. *)
Ltac split_matches :=
  repeat (cbn beta iota zeta;
          match goal with
          | |- context [match ?x with _ => _ end] => destruct x
          | |- context [if ?x then _ else _] => destruct x
          end).

Lemma id_set_text v d : id (set_text v d) = id d.
Proof. unfold set_text; split_matches; reflexivity. Qed.

Lemma id_undo d : id (undo d) = id d.
Proof. unfold undo; split_matches; reflexivity. Qed.

Lemma id_redo d : id (redo d) = id d.
Proof. unfold redo; split_matches; reflexivity. Qed.

Lemma id_replace_all n r d : id (snd (replace_all n r d)) = id d.
Proof. unfold replace_all; split_matches; try apply id_set_text; reflexivity. Qed.

Lemma id_save d w : id (snd (fst (save d w))) = id d.
Proof. unfold save, fs_write; split_matches; reflexivity. Qed.

Lemma id_menu_save_doc picked d w : id (fst (menu_save_doc picked d w)) = id d.
Proof.
  unfold menu_save_doc; destruct (path d); [|destruct picked as [p|]; [|reflexivity]].
  - pose proof (id_save d w) as H; destruct (save d w) as [[r d'] w']; exact H.
  - pose proof (id_save (set_path (Some p) d) w) as H; unfold save_as.
    destruct (save (set_path (Some p) d) w) as [[r d'] w']; exact H.
Qed.

Lemma id_menu_save_as_doc picked d w : id (fst (menu_save_as_doc picked d w)) = id d.
Proof.
  unfold menu_save_as_doc; destruct picked as [p|]; [|reflexivity].
  pose proof (id_save (set_path (Some p) d) w) as H; unfold save_as.
  destruct (save (set_path (Some p) d) w) as [[r d'] w']; exact H.
Qed.

Lemma update_nth_map {A B} (h : A -> B) (g : A -> A) : forall l i l',
  update_nth i g l = Some l' -> (forall x, nth_error l i = Some x -> h (g x) = h x) ->
  map h l' = map h l.
Proof.
  induction l as [|x l IH]; intros [|i] l' E H; simpl in E; try discriminate.
  - injection E as <-; simpl; rewrite (H x eq_refl); reflexivity.
  - destruct (update_nth i g l) as [l1|] eqn:E1; simpl in E; [|discriminate].
    injection E as <-; simpl; f_equal; apply (IH i l1 E1); exact H.
Qed.

(** What an operation on the active document keeps. *)
Definition same_frame (a a' : App) : Prop :=
  map id (docs a') = map id (docs a) /\ active_doc a' = active_doc a /\
  next_doc_id a' = next_doc_id a /\ autosave_interval a' = autosave_interval a.

Lemma on_current_frame f a a' :
  on_current f a = Some a' -> (forall d, id (f d) = id d) -> same_frame a a'.
Proof.
  unfold on_current; intros E Hf.
  destruct (update_nth (active_doc a) f (docs a)) as [ds|] eqn:U; simpl in E; [|discriminate].
  injection E as <-; unfold same_frame; simpl; repeat split.
  apply (update_nth_map id f _ _ _ U); intros x _; apply Hf.
Qed.

Lemma on_current_io_frame f a w a' w' :
  on_current_io f a w = Some (a', w') -> (forall d w, id (fst (f d w)) = id d) -> same_frame a a'.
Proof.
  unfold on_current_io; intros E Hf.
  destruct (nth_error (docs a) (active_doc a)) as [d|] eqn:N; [|discriminate].
  destruct (f d w) as [d' w1] eqn:F.
  destruct (update_nth (active_doc a) (fun _ => d') (docs a)) as [ds|] eqn:U; simpl in E; [|discriminate].
  injection E as <- _; unfold same_frame; simpl; repeat split.
  apply (update_nth_map id (fun _ => d') _ _ _ U).
  intros x Hx; rewrite N in Hx; injection Hx as <-.
  pose proof (Hf d w) as H; rewrite F in H; exact H.
Qed.

Lemma autosave_docs_ids ds w : map id (fst (autosave_docs ds w)) = map id ds.
Proof.
  apply nth_error_ext; intros i; rewrite !nth_error_map.
  destruct (nth_error ds i) as [d|] eqn:N.
  - destruct (autosave_docs_shape ds w i d N) as [H | (_ & _ & H)]; rewrite H; reflexivity.
  - apply nth_error_None in N; rewrite (proj2 (nth_error_None _ _)); [reflexivity|].
    rewrite autosave_docs_length; exact N.
Qed.

Lemma from_file_id i p w d : from_file i p w = Ok d -> id d = i.
Proof.
  unfold from_file; destruct (fs_read_to_string p w); intros E; [|discriminate].
  injection E as <-; reflexivity.
Qed.

Lemma NoDup_snoc {A} (l : list A) x : NoDup l -> ~ In x l -> NoDup (l ++ [x]).
Proof.
  induction l as [|y l IH]; intros Hn Hx; simpl; [constructor; [intros []|constructor]|].
  inversion Hn as [|? ? Hy Hl]; subst; constructor.
  - intros H; apply in_app_or in H as [H|[H|[]]]; [contradiction | subst; apply Hx; left; reflexivity].
  - apply IH; [exact Hl | intros H; apply Hx; right; exact H].
Qed.

Lemma remove_at_split {A} (l : list A) idx x :
  idx < List.length l -> l = firstn idx l ++ nth idx l x :: skipn (S idx) l.
Proof. intros H; rewrite <- (skipn_nth l idx x H), firstn_skipn; reflexivity. Qed.

Lemma tabs_bar_docs lc cc a :
  docs (tabs_bar lc cc a) = docs a \/
  exists idx, idx < List.length (docs a) /\ docs (tabs_bar lc cc a) = remove_at idx (docs a).
Proof.
  unfold tabs_bar.
  pose proof (tabs_bar_clicks lc cc a) as [_ H2].
  destruct (fold_left _ _ _) as [na tc]; simpl in H2.
  destruct tc as [idx|].
  - right; exists idx; split; [apply (H2 idx eq_refl)|].
    destruct na; reflexivity.
  - left; destruct na; reflexivity.
Qed.

Lemma tabs_bar_frame lc cc a :
  next_doc_id (tabs_bar lc cc a) = next_doc_id a /\
  autosave_interval (tabs_bar lc cc a) = autosave_interval a.
Proof.
  unfold tabs_bar; destruct (fold_left _ _ _) as [na tc].
  destruct na, tc; split; reflexivity.
Qed.

(** The invariants of a session: a valid active tab and the interval
    within the range of its widget; and, while the id counter has not
    wrapped, ids unique and below the counter. *)
Definition shape_inv (a : App) : Prop := app_inv a /\ 10 <= autosave_interval a <= 600.

Definition ids_inv (a : App) : Prop :=
  NoDup (map id (docs a)) /\ Forall (fun k => k < next_doc_id a) (map id (docs a)).

Lemma same_frame_shape a a' : same_frame a a' -> shape_inv a -> shape_inv a'.
Proof.
  intros (M & A & N & I) ([Hne Hlt] & Hi).
  assert (L : List.length (docs a') = List.length (docs a))
    by (rewrite <- (length_map id (docs a')), <- (length_map id (docs a)), M; reflexivity).
  split; [split|]; [intros E; rewrite E in L; simpl in L; destruct (docs a); [contradiction | discriminate]
               | lia | rewrite I; exact Hi].
Qed.

Lemma same_frame_ids a a' : same_frame a a' -> ids_inv a -> ids_inv a'.
Proof. intros (M & _ & N & _) H; unfold ids_inv; rewrite M, N; exact H. Qed.

Lemma append_shape a d n :
  shape_inv a ->
  shape_inv (mkApp (docs a ++ [d]) (List.length (docs a)) n (autosave_interval a) (last_autosave a)).
Proof.
  intros (_ & Hi); unfold shape_inv, app_inv; simpl; rewrite length_app; simpl.
  split; [split; [intros E; apply app_eq_nil in E as [_ E]; discriminate | lia] | exact Hi].
Qed.

Lemma usize_incr_S n : (N.of_nat n < usize_max)%N -> usize_incr n = S n.
Proof.
  intros H; unfold usize_incr.
  destruct (N.eqb_spec (N.of_nat n) usize_max) as [E|_]; [rewrite E in H; lia | reflexivity].
Qed.

Lemma append_ids a d :
  ids_inv a -> id d = next_doc_id a -> (N.of_nat (next_doc_id a) < usize_max)%N ->
  ids_inv (mkApp (docs a ++ [d]) (List.length (docs a)) (usize_incr (next_doc_id a))
                 (autosave_interval a) (last_autosave a)).
Proof.
  intros (Hnd & Hf) Hd Hmax.
  unfold ids_inv; simpl; rewrite map_app, usize_incr_S by exact Hmax; simpl.
  rewrite Hd; split.
  - apply NoDup_snoc; [exact Hnd|].
    intros Hin; rewrite Forall_forall in Hf; specialize (Hf _ Hin); lia.
  - apply Forall_app; split; [|constructor; [lia | constructor]].
    eapply Forall_impl; [|exact Hf]; intros k Hk; simpl in Hk; lia.
Qed.

Lemma tabs_bar_ids lc cc a : ids_inv a -> ids_inv (tabs_bar lc cc a).
Proof.
  intros (Hnd & Hf); unfold ids_inv.
  destruct (tabs_bar_frame lc cc a) as [N _]; rewrite N.
  destruct (tabs_bar_docs lc cc a) as [-> | (idx & Hidx & ->)]; [split; assumption|].
  pose proof (remove_at_split (map id (docs a)) idx 0 ltac:(rewrite length_map; exact Hidx)) as Sp.
  assert (R : map id (remove_at idx (docs a)) =
              firstn idx (map id (docs a)) ++ skipn (S idx) (map id (docs a)))
    by (unfold remove_at; rewrite map_app, firstn_map, skipn_map; reflexivity).
  rewrite R; split.
  - rewrite Sp in Hnd; exact (NoDup_remove_1 _ _ _ Hnd).
  - rewrite Forall_forall in *; intros k Hk; apply Hf; rewrite Sp.
    apply in_app_or in Hk as [Hk|Hk]; apply in_or_app; [left | right; right]; exact Hk.
Qed.

Lemma autosave_same_frame now a w : same_frame a (fst (handle_autosave now a w)).
Proof.
  unfold same_frame, handle_autosave.
  destruct (autosave_interval a <=? now - last_autosave a); [|repeat split].
  pose proof (autosave_docs_ids (docs a) w) as M.
  destruct (autosave_docs (docs a) w) as [ds w1]; simpl in *; repeat split; exact M.
Qed.

(** Every step that is not "New" or a successful "Open" keeps the ids and
    the counter. *)
Lemma frame_step_cases a w a' w' :
  frame_step a w a' w' ->
  a' = menu_new a \/ (exists p, a' = menu_open p a w) \/
  (exists lc cc, a' = tabs_bar lc cc a) \/
  (exists secs, 10 <= secs <= 600 /\ a' = set_interval secs a) \/ same_frame a a'.
Proof.
  intros Hs; destruct Hs as
    [a w | a w p | a w picked a' w' E | a w picked a' w' E | a w a' E | a w a' E
    | a w needle repl a' E | a w v a' E | a w lc cc | a w now | a w secs Hr].
  - left; reflexivity.
  - right; left; exists p; reflexivity.
  - do 4 right; apply (on_current_io_frame _ _ _ _ _ E); apply id_menu_save_doc.
  - do 4 right; apply (on_current_io_frame _ _ _ _ _ E); apply id_menu_save_as_doc.
  - do 4 right; apply (on_current_frame _ _ _ E); apply id_undo.
  - do 4 right; apply (on_current_frame _ _ _ E); apply id_redo.
  - do 4 right; apply (on_current_frame _ _ _ E); apply id_replace_all.
  - do 4 right; apply (on_current_frame _ _ _ E); apply id_set_text.
  - right; right; left; exists lc, cc; reflexivity.
  - do 4 right; apply autosave_same_frame.
  - do 3 right; left; exists secs; split; [exact Hr | reflexivity].
Qed.

Lemma frame_step_shape a w a' w' : frame_step a w a' w' -> shape_inv a -> shape_inv a'.
Proof.
  intros Hs Hinv.
  destruct (frame_step_cases _ _ _ _ Hs) as [-> | [(p & ->) | [(lc & cc & ->) | [(secs & Hr & ->) | F]]]].
  - apply append_shape; exact Hinv.
  - unfold menu_open; destruct (from_file _ _ _); [apply append_shape|]; exact Hinv.
  - destruct Hinv as [Hi Hint]; split; [apply tabs_bar_inv; exact Hi|].
    destruct (tabs_bar_frame lc cc a) as [_ ->]; exact Hint.
  - destruct Hinv as [Hi _]; split; [exact Hi | exact Hr].
  - exact (same_frame_shape _ _ F Hinv).
Qed.

Lemma frame_step_ids a w a' w' :
  frame_step a w a' w' -> (N.of_nat (next_doc_id a) < usize_max)%N -> ids_inv a -> ids_inv a'.
Proof.
  intros Hs Hmax Hinv.
  destruct (frame_step_cases _ _ _ _ Hs) as [-> | [(p & ->) | [(lc & cc & ->) | [(secs & Hr & ->) | F]]]].
  - apply append_ids; [exact Hinv | reflexivity | exact Hmax].
  - unfold menu_open; destruct (from_file _ _ _) as [d|e] eqn:F; [|exact Hinv].
    apply append_ids; [exact Hinv | exact (from_file_id _ _ _ _ F) | exact Hmax].
  - apply tabs_bar_ids; exact Hinv.
  - exact Hinv.
  - exact (same_frame_ids _ _ F Hinv).
Qed.

Lemma session_shape a w : session a w -> shape_inv a.
Proof.
  induction 1 as [now w | a w a' w' H IH Hs].
  - unfold shape_inv, app_inv; simpl; repeat split; try lia; discriminate.
  - exact (frame_step_shape _ _ _ _ Hs IH).
Qed.

Lemma session_no_wrap_session a w : session_no_wrap a w -> session a w.
Proof.
  induction 1 as [now w | a w a' w' H IH Hmax Hs]; [apply s_init | exact (s_step _ _ _ _ IH Hs)].
Qed.

Lemma session_no_wrap_ids a w : session_no_wrap a w -> ids_inv a.
Proof.
  induction 1 as [now w | a w a' w' H IH Hmax Hs].
  - unfold ids_inv; simpl; split.
    + constructor; [intros [] | constructor].
    + constructor; [lia | constructor].
  - exact (frame_step_ids _ _ _ _ Hs Hmax IH).
Qed.

End Session.

(** X13: in every state of a session in which the id counter never
    reaches [usize::MAX], whatever the sequence of menu actions, tab clicks
    and autosave sweeps, document ids are pairwise distinct and each is
    below [next_doc_id], so a fresh id never collides with an open
    document. *)
Theorem session_ids_unique a w :
  session_no_wrap a w ->
  NoDup (map id (docs a)) /\ Forall (fun d => id d < next_doc_id a) (docs a).
Proof.
  intros H; destruct (session_no_wrap_ids a w H) as (Hnd & Hf).
  split; [exact Hnd | apply Forall_map in Hf; exact Hf].
Qed.

Definition demo_session : App := tabs_bar (fun _ => false) (fun i => Nat.eqb i 0) (menu_new (app_new 0)).

Lemma session_ids_unique_witness :
  session_no_wrap demo_session w_home /\
  NoDup (map id (docs demo_session)) /\
  Forall (fun d => id d < next_doc_id demo_session) (docs demo_session).
Proof.
  assert (S : session_no_wrap demo_session w_home).
  { eapply nw_step; [eapply nw_step; [apply nw_init | vm_compute; reflexivity | apply fs_new]
                    | vm_compute; reflexivity | apply fs_tabs]. }
  split; [exact S | exact (session_ids_unique demo_session w_home S)].
Defined.

(** X14: in every state of a session, saves and the interval setting
    included, there is at least one open document, the active index
    points at one of them, and the autosave interval lies between 10
    and 600 seconds. *)
Theorem session_active_valid a w :
  session a w ->
  docs a <> [] /\ active_doc a < List.length (docs a) /\
  10 <= autosave_interval a <= 600.
Proof.
  intros H; destruct (session_shape a w H) as ([Hne Hlt] & Hi).
  repeat split; assumption || lia.
Qed.

Definition demo_session2 : App := set_interval 600 (menu_new (app_new 0)).

Lemma session_active_valid_witness :
  session demo_session2 w_home /\
  docs demo_session2 <> [] /\ active_doc demo_session2 < List.length (docs demo_session2) /\
  10 <= autosave_interval demo_session2 <= 600.
Proof.
  assert (S : session demo_session2 w_home).
  { eapply s_step; [eapply s_step; [apply s_init | apply fs_new] | apply fs_interval; lia]. }
  split; [exact S | exact (session_active_valid demo_session2 w_home S)].
Defined.
